(** * glucifer: figure/database state reconciliation

    A shallow embedding of [glucifer/_glucifer.py] ([Store._generate],
    [Store._get_state], [Store._read_state], [Store.save],
    [Figure.open_viewer], [Figure.send_command]) and of
    [Drawing._updateProperties] from [glucifer/pylab/_drawing.py].

    Python dictionaries with string keys are finite maps [gmap string value];
    drawing objects are mutable and compared by identity, so they are
    object identifiers into explicit attribute stores; calls into the native
    libraries (libUnderworld, LavaVu, urllib2, subprocess, time) are recorded
    as events, and what they answer or raise is given from outside. *)

From Stdlib Require Import ZArith String Ascii DecimalString DecimalNat.
From stdpp Require Import gmap strings list fin_maps.

Local Open Scope string_scope.
Local Open Scope Z_scope.
Local Open Scope list_scope.

(** ** Python values held in property dictionaries *)

(** Booleans, integers, strings, [None], tuples and lists.  Floating point
    numbers are left out of the embedding. *)
#[local] Unset Elimination Schemes.
Inductive value : Type :=
  | VNone
  | VBool (b : bool)
  | VInt (z : Z)
  | VStr (s : string)
  | VTuple (l : list value)
  | VList (l : list value).
#[local] Set Elimination Schemes.

(** Python's truth value testing, as used by [if v] and [bool(v)]. *)
Definition truthy (v : value) : bool :=
  match v with
  | VNone => false
  | VBool b => b
  | VInt z => negb (z =? 0)
  | VStr s => negb (String.eqb s "")
  | VTuple l => match l with [] => false | _ => true end
  | VList l => match l with [] => false | _ => true end
  end.

(** Python's [==] on these values: [bool] is a subclass of [int], so
    [True == 1]; sequences compare element by element, a tuple never equals
    a list. *)
Fixpoint py_eq (a b : value) {struct a} : bool :=
  let fix seq_eq (l1 l2 : list value) {struct l1} : bool :=
    match l1, l2 with
    | [], [] => true
    | x :: xs, y :: ys => py_eq x y && seq_eq xs ys
    | _, _ => false
    end in
  match a, b with
  | VNone, VNone => true
  | VBool x, VBool y => Bool.eqb x y
  | VBool x, VInt y => (if x then 1 else 0) =? y
  | VInt x, VBool y => x =? (if y then 1 else 0)
  | VInt x, VInt y => x =? y
  | VStr x, VStr y => String.eqb x y
  | VTuple l1, VTuple l2 => seq_eq l1 l2
  | VList l1, VList l2 => seq_eq l1 l2
  | _, _ => false
  end.

(** A property dictionary. *)
Abbreviation dict := (gmap string value).

(** [d.update(new)]: every key of [new] is written into [d]. *)
Definition update (d new : dict) : dict := new ∪ d.

(** [d[k] = v] *)
Definition setitem (k : string) (v : value) (d : dict) : dict := <[k := v]> d.

(** ** [Drawing._updateProperties] (pylab/_drawing.py) *)

(** [{k:v for k,v in self._properties.iteritems() if v}] *)
Definition truthy_items (d : dict) : dict :=
  filter (λ kv, truthy kv.2 = true) d.

(** Returns the new value of [self._properties]. *)
Definition _updateProperties (_properties newProps : dict) (overwrite : bool) : dict :=
  if overwrite then update _properties newProps
  else update newProps (truthy_items _properties).

(** ** Strings *)

(** [s[n:]] *)
Fixpoint str_drop (n : nat) (s : string) : string :=
  match n, s with
  | S n', String _ s' => str_drop n' s'
  | _, _ => s
  end.

Definition lower_ascii (c : ascii) : ascii :=
  let n := nat_of_ascii c in
  if (65 <=? n)%nat && (n <=? 90)%nat then ascii_of_nat (n + 32) else c.

(** [s.lower()] *)
Fixpoint lower (s : string) : string :=
  match s with
  | EmptyString => EmptyString
  | String c s' => String (lower_ascii c) (lower s')
  end.

(** [s.endswith(suffix)] *)
Definition endswith (s suffix : string) : bool :=
  (String.length suffix <=? String.length s)%nat
  && String.eqb (str_drop (String.length s - String.length suffix) s) suffix.

(** [str(n)] for a non-negative index. *)
Definition str (n : nat) : string := NilZero.string_of_uint (Nat.to_uint n).

(** ** Persisted documents *)

(** One entry of the document returned by the viewer's [getFigures()]. *)
Record FigureState : Type := mkFigureState {
  figure : string;
  fs_properties : dict;
  fs_views : list dict;
  fs_objects : list dict
}.

(** The dictionary built by [Store._get_state] before [json.dumps]. *)
Record Export : Type := mkExport {
  ex_properties : dict;
  ex_views : list dict;
  ex_objects : list dict
}.

(** The third argument of [lucDatabase_WriteState]: the JSON text is kept as
    the structure it serialises. *)
Inductive written : Type :=
  | WExport (e : Export)
  | WState (s : FigureState).

(** ** Drawing objects, the store and the outside world *)

(** Drawing objects are compared by identity. *)
Abbreviation oid := nat.

(** Result of running a piece of Python: a value, an exception, or no
    result because the loop bound ran out. *)
Inductive exn : Type :=
  | TypeError (msg : string)
  | KeyError (key : string)
  | IndexError (msg : string)
  | RuntimeError (msg : string)
  | OSError (msg : string)
  | ImportError (msg : string).

Inductive outcome (A : Type) : Type :=
  | Return (a : A)
  | Raise (e : exn)
  | Diverge.
Arguments Return {A} a.
Arguments Raise {A} e.
Arguments Diverge {A}.

(** Attributes of drawing objects that nothing here assigns after
    construction: [obj._colourBar], [obj._dr.type], [obj.colourMap]; and
    the method [obj.render], which the sources do not hold: what it raises,
    [None] when it returns. *)
Record ObjTable : Type := mkObjTable {
  _colourBar : oid → option oid;
  dr_type : oid → string;
  colourMap : oid → bool;
  render_raises : oid → option exn
}.

(** The viewer during one call of the store.  [Figures]: it works, and
    answers [getFigures()] and [getTimeSteps()] with these.  [ViewerError]:
    it raises [RuntimeError] with this message, in [_read_state] inside
    the [try], in the live branch of [_generate] when [lvrun] is called. *)
Inductive reply : Type :=
  | Figures (states : list FigureState) (steps : list Z)
  | ViewerError (msg : string).

(** Process-wide facts: the module global [lavavu] and [uw.rank()]. *)
Record Env : Type := mkEnv {
  lavavu : bool;
  rank : nat
}.

(** Calls that leave Python. *)
Inductive event : Type :=
  | EvSetTimeStep (n : Z)
  | EvRemoveByIndex (i : nat)
  | EvSetProperties (o : oid) (p : dict)
  | EvColourMapSetProperties (o : oid)
  | EvRegisterAppend (o : oid)
  | EvExecute
  | EvWriteState (figname : string) (w : written)
  | EvOpenDatabase
  | EvViewerNew (timestep : Z)
  | EvViewerSetup (timestep : Z)
  | EvRender (o : oid)
  | EvBackupDbFile (filename : string)
  | EvPrint (line : string)
  | EvTraceback
  | EvSleep (seconds : Z)
  | EvPopen (argv : list string)
  | EvUrlOpen (url : string).

(** The store, the attributes of the drawing objects it can reach, the
    native database handle, the trace of outside calls, and whether the
    figure at hand holds a viewer process ([Figure._viewerProc]). *)
Record State : Type := mkState {
  step : Z;
  _objects : list oid;
  _viewonly : bool;
  properties : gmap oid dict;
  parent : gmap oid oid;
  register : list oid;
  db_open : bool;
  viewer : bool;
  timesteps : list Z;
  trace : list event;
  _viewerProc : bool
}.

(** [obj.properties]; an object without an entry has the empty dictionary. *)
Definition get_props (s : State) (obj : oid) : dict :=
  default ∅ (properties s !! obj).

Definition set_props (obj : oid) (d : dict) (s : State) : State :=
  mkState (step s) (_objects s) (_viewonly s) (<[obj := d]> (properties s))
          (parent s) (register s) (db_open s) (viewer s) (timesteps s) (trace s) (_viewerProc s).

(** [obj.parent = p]; [None] is the absence of an entry. *)
Definition set_parent (obj : oid) (p : option oid) (s : State) : State :=
  mkState (step s) (_objects s) (_viewonly s) (properties s)
          (match p with Some q => <[obj := q]> (parent s) | None => delete obj (parent s) end)
          (register s) (db_open s) (viewer s) (timesteps s) (trace s) (_viewerProc s).

Definition set_objects (l : list oid) (s : State) : State :=
  mkState (step s) l (_viewonly s) (properties s) (parent s) (register s)
          (db_open s) (viewer s) (timesteps s) (trace s) (_viewerProc s).

Definition set_register (l : list oid) (s : State) : State :=
  mkState (step s) (_objects s) (_viewonly s) (properties s) (parent s) l
          (db_open s) (viewer s) (timesteps s) (trace s) (_viewerProc s).

Definition set_db_open (b : bool) (s : State) : State :=
  mkState (step s) (_objects s) (_viewonly s) (properties s) (parent s) (register s)
          b (viewer s) (timesteps s) (trace s) (_viewerProc s).

Definition set_viewer (b : bool) (s : State) : State :=
  mkState (step s) (_objects s) (_viewonly s) (properties s) (parent s) (register s)
          (db_open s) b (timesteps s) (trace s) (_viewerProc s).

Definition set_timesteps (l : list Z) (s : State) : State :=
  mkState (step s) (_objects s) (_viewonly s) (properties s) (parent s) (register s)
          (db_open s) (viewer s) l (trace s) (_viewerProc s).

Definition set_viewerProc (b : bool) (s : State) : State :=
  mkState (step s) (_objects s) (_viewonly s) (properties s) (parent s) (register s)
          (db_open s) (viewer s) (timesteps s) (trace s) b.

Definition emit (e : event) (s : State) : State :=
  mkState (step s) (_objects s) (_viewonly s) (properties s) (parent s) (register s)
          (db_open s) (viewer s) (timesteps s) (trace s ++ [e]) (_viewerProc s).

(** State and exception monad for the methods of [Store]. *)
Definition M (A : Type) : Type := State → State * outcome A.

Definition raise {A} (e : exn) : M A := λ s, (s, Raise e).
Definition act (f : State → State) : M unit := λ s, (f s, Return tt).
Definition gets {A} (f : State → A) : M A := λ s, (s, Return (f s)).

#[global] Instance M_ret : MRet M := λ A a s, (s, Return a).
#[global] Instance M_bind : MBind M := λ A B k m s,
  match m s with
  | (s', Return a) => k a s'
  | (s', Raise e) => (s', Raise e)
  | (s', Diverge) => (s', Diverge)
  end.

Definition diverge {A} : M A := λ s, (s, Diverge).

(** Lifts a computation that reads the state but can only fail. *)
Definition lift {A} (f : State → outcome A) : M A := λ s, (s, f s).

(** ** [Store] *)

Section Store.
Context (U : ObjTable) (env : Env).

(** [Store.save].  The [isinstance(filename, str)] test always passes on a
    [string]. *)
Definition save (filename : string) : M (option string) :=
  if (rank env =? 0)%nat then
    let filename :=
      if negb (endswith (lower filename) ".gldb") && negb (endswith (lower filename) ".db")
      then filename +:+ ".gldb" else filename in
    act (emit (EvBackupDbFile filename));;
    mret (Some filename)
  else mret None.

(** [Store.lvrun] with its default arguments: one viewer per store. *)
Definition lvrun (s : State) : State :=
  if viewer s then emit (EvViewerSetup (step s)) s
  else emit (EvViewerNew (step s)) (set_viewer true s).

(** [Store._read_state]; [r] is what the viewer answers.  Python's bare
    [return] and the fall-through of the [except] branch give [None]. *)
Definition _read_state (r : reply) : M (option (list FigureState)) :=
  if negb (lavavu env) || (0 <? rank env)%nat then mret None
  else
    opened ← gets db_open;
    (if opened : bool then mret tt
     else act (λ s, set_db_open true (emit EvOpenDatabase s)));;
    act lvrun;;
    match r with
    | Figures states steps =>
        act (set_timesteps steps);;
        mret (Some states)
    | ViewerError msg =>
        act (emit (EvPrint ("LavaVu error: " +:+ msg)));;
        act (emit EvTraceback);;
        mret None
    end.

(** [Store._get_state], before serialisation. *)
Definition _get_state (objects : list oid) (props : dict) (s : State) : Export :=
  mkExport props [props] (map (get_props s) objects).

(** *** [Store._generate]: merging the figure's objects into the store *)

(** Body of the first loop for one [obj]. *)
Definition visit (obj : oid) (s : State) : State :=
  let s1 := match _colourBar U obj with
            | Some cb => set_parent cb (Some obj) s
            | None => s
            end in
  let s2 := set_parent obj None s1 in
  if bool_decide (obj ∈ _objects s2) then s2
  else set_objects (_objects s2 ++ [obj]) s2.

(** [for obj in objects] where the body appends to [objects]: Python's list
    iterator visits the appended elements too, so the loop is a work list.
    [visited ++ pending] is the current content of [objects]; the result is
    its final content. *)
Fixpoint merge_loop (fuel : nat) (visited pending : list oid) (s : State)
    : option (list oid * State) :=
  match pending with
  | [] => Some (visited, s)
  | obj :: rest =>
      match fuel with
      | O => None
      | S fuel' =>
          merge_loop fuel' (visited ++ [obj])
                     (rest ++ option_list (_colourBar U obj)) (visit obj s)
      end
  end.

(** *** Default names *)

Definition default_name (o : nat) (obj : oid) (d : dict) : string :=
  if from_option truthy false (d !! "colourbar")
  then "ColourBar_" +:+ str o
  else str_drop 3 (dr_type U obj) +:+ "_" +:+ str o.

(** Body of the second loop for index [o]. *)
Definition name_object (o : nat) (obj : oid) (s : State) : State :=
  let d := get_props s obj in
  match d !! "name" with
  | Some _ => s
  | None => set_props obj (<["name" := VStr (default_name o obj d)]> d) s
  end.

(** [for o in range(len(self._objects))], from index [o] on. *)
Fixpoint name_loop (o : nat) (objs : list oid) (s : State) : State :=
  match objs with
  | [] => s
  | obj :: rest => name_loop (S o) rest (name_object o obj s)
  end.

(** *** Live mode *)

(** [for ii in range(count,0,-1)]: the register is emptied from its end. *)
Definition clear_register (s : State) : State :=
  foldl (λ s i, emit (EvRemoveByIndex i) (set_register (take i (register s)) s))
        s (rev (seq 0 (length (register s)))).

(** [bool(obj in objects or obj.parent and obj.parent in objects)] *)
Definition is_visible (objects : list oid) (s : State) (obj : oid) : bool :=
  bool_decide (obj ∈ objects)
  || match parent s !! obj with
     | Some p => bool_decide (p ∈ objects)
     | None => false
     end.

(** Body of the loop that fills the register. *)
Definition write_object (objects : list oid) (s : State) (obj : oid) : State :=
  let d := <["visible" := VBool (is_visible objects s obj)]> (get_props s obj) in
  let s1 := emit (EvSetProperties obj d) (set_props obj d s) in
  let s2 := if colourMap U obj then emit (EvColourMapSetProperties obj) s1 else s1 in
  emit (EvRegisterAppend obj) (set_register (register s2 ++ [obj]) s2).

(** From the write step to [lucDatabase_WriteState]: the register is
    refilled and the state written.  Nothing here raises. *)
Definition write_live (figname : string) (objects : list oid) (props : dict)
    (s : State) : State :=
  let s1 := emit (EvSetTimeStep (step s)) s in
  let s2 := clear_register s1 in
  let s3 := foldl (write_object objects) s2 (_objects s2) in
  let s4 := emit EvExecute s3 in
  emit (EvWriteState figname (WExport (_get_state (_objects s4) props s4))) s4.

(** [lv = self.lvrun()] where no [try] encloses it: a viewer that raises
    was called, and [self.viewer] is as before. *)
Definition open_lv (r : reply) : M unit :=
  λ s,
    match r with
    | Figures _ _ => (lvrun s, Return tt)
    | ViewerError msg =>
        (emit (if viewer s then EvViewerSetup (step s) else EvViewerNew (step s)) s,
         Raise (RuntimeError msg))
    end.

(** [for obj in self._objects: obj.render(lv)] *)
Fixpoint render_objects (objs : list oid) : M unit :=
  match objs with
  | [] => mret tt
  | obj :: rest =>
      act (emit (EvRender obj));;
      match render_raises U obj with
      | Some e => raise e
      | None => render_objects rest
      end
  end.

(** The geometry output that ends the live branch, after the state was
    written. *)
Definition render_live (r : reply) : M unit :=
  if lavavu env && (rank env =? 0)%nat then
    open_lv r;;
    objs ← gets _objects;
    render_objects objs
  else mret tt.

Definition generate_live (r : reply) (figname : string) (objects : list oid)
    (props : dict) : M unit :=
  act (write_live figname objects props);;
  render_live r.

(** *** View-only mode *)

(** The search loop: the first state whose ["figure"] is [figname]. *)
Fixpoint find_state (figname : string) (states : list FigureState) : option FigureState :=
  match states with
  | [] => None
  | state :: rest =>
      if String.eqb (figure state) figname then Some state
      else find_state figname rest
  end.

(** The search loop followed by [if not found: state = states[-1]]. *)
Definition locate_state (figname : string) (states : list FigureState)
    : outcome FigureState :=
  match find_state figname states with
  | Some state => Return state
  | None =>
      match last states with
      | Some state => Return state
      | None => Raise (IndexError "list index out of range")
      end
  end.

(** Body of the inner loop: one local object against one persisted
    descriptor. *)
Definition match_override (dbobj objprops : dict) : outcome dict :=
  match dbobj !! "name" with
  | None => Raise (KeyError "name")
  | Some n =>
      match objprops !! "name" with
      | None => Raise (KeyError "name")
      | Some m =>
          Return (if py_eq n m
                  then <["visible" := VBool true]> (update dbobj objprops)
                  else dbobj)
      end
  end.

(** [for obj in objects] over the local objects' properties. *)
Fixpoint apply_overrides (overrides : list dict) (dbobj : dict) : outcome dict :=
  match overrides with
  | [] => Return dbobj
  | objprops :: rest =>
      match match_override dbobj objprops with
      | Return dbobj' => apply_overrides rest dbobj'
      | Raise e => Raise e
      | Diverge => Diverge
      end
  end.

(** [for dbobj in state["objects"]] when local objects were passed. *)
Fixpoint reconcile_objects (overrides : list dict) (dbobjs : list dict)
    : outcome (list dict) :=
  match dbobjs with
  | [] => Return []
  | dbobj :: rest =>
      match apply_overrides overrides (<["visible" := VBool false]> dbobj) with
      | Return dbobj' =>
          match reconcile_objects overrides rest with
          | Return rest' => Return (dbobj' :: rest')
          | Raise e => Raise e
          | Diverge => Diverge
          end
      | Raise e => Raise e
      | Diverge => Diverge
      end
  end.

(** The two branches of [if len(objects)]. *)
Definition update_objects (objects : list oid) (dbobjs : list dict) (s : State)
    : outcome (list dict) :=
  match objects with
  | [] => Return (map (λ obj, <["visible" := VBool true]> obj) dbobjs)
  | _ :: _ => reconcile_objects (map (get_props s) objects) dbobjs
  end.

(** The two [update(props)] calls; [state["views"][0]] needs a view. *)
Definition update_properties (props : dict) (state : FigureState) (objs : list dict)
    : outcome FigureState :=
  match fs_views state with
  | [] => Raise (IndexError "list index out of range")
  | view :: views =>
      Return (mkFigureState (figure state) (update (fs_properties state) props)
                            (update view props :: views) objs)
  end.

Definition generate_view (r : reply) (figname : string) (objects : list oid)
    (props : dict) : M unit :=
  states ← _read_state r;
  match states with
  | None => raise (TypeError "'NoneType' object is not iterable")
  | Some states =>
      state ← lift (λ _, locate_state figname states);
      objs ← lift (update_objects objects (fs_objects state));
      state' ← lift (λ _, update_properties props state objs);
      act (emit (EvWriteState figname (WState state')))
  end.

(** [Store._generate].  The caller's list [objects] is extended in place;
    its final content is the value returned here. *)
Definition _generate (fuel : nat) (r : reply) (figname : string)
    (objects : list oid) (props : dict) : M (list oid) :=
  λ s,
    match merge_loop fuel [] objects s with
    | None => (s, Diverge)
    | Some (objects', s1) =>
        let s2 := name_loop 0 (_objects s1) s1 in
        if negb (_viewonly s2)
        then (generate_live r figname objects' props;; mret objects') s2
        else (generate_view r figname objects' props;; mret objects') s2
    end.

(** [Store.empty] *)
Definition empty (s : State) : State := set_objects [] s.

End Store.

(** [Store.__init__]: the mode is fixed here.  [isfile] tells whether the
    file with the final name exists. *)
Definition Store_init (filename : option string) (view : bool) (isfile : string → bool)
    : State :=
  let filename :=
    match filename with
    | Some f =>
        if negb (String.eqb f "") && negb (endswith (lower f) ".gldb") && negb (endswith (lower f) ".db")
        then Some (f +:+ ".gldb") else Some f
    | None => None
    end in
  let viewonly :=
    match filename with
    | Some f => view && negb (String.eqb f "") && isfile f
    | None => false
    end in
  mkState 0 [] viewonly ∅ ∅ [] false false [] [] false.

(** ** [Figure.open_viewer] and [Figure.send_command] *)

(** What a figure holds while a command is sent: its name, its own entries
    (the figure is a dictionary), the objects appended to it, its own
    [Drawing] when that has vertices, and of its store the file name, the
    [_id] and the path of the viewer's executable. *)
Record Figure : Type := mkFigure {
  fig_name : string;
  fig_items : dict;
  _drawingObjects : list oid;
  draw : option oid;
  db_filename : option string;
  db_id : string;
  _lvbin : string
}.

(** What lies outside during one call of [send_command], by attempt:
    whether the request is answered, whether the viewer process still runs
    ([poll() == None]), what [subprocess.Popen] raises if anything, the
    viewer as [_generate] meets it; and whether [IPython.display] can be
    imported. *)
Record Outside : Type := mkOutside {
  urlopen : nat → bool;
  poll : nat → bool;
  popen : nat → option exn;
  viewer_reply : nat → reply;
  ipython : bool
}.

(** [os.path.join] of a directory and a relative name. *)
Definition path_join (dir name : string) : string :=
  if String.eqb dir "" then name
  else if endswith dir "/" then dir +:+ name
  else dir +:+ "/" +:+ name.

(** [str] of an integer. *)
Definition str_Z (z : Z) : string :=
  if z <? 0 then "-" +:+ str (Z.to_nat (- z)) else str (Z.to_nat z).

Section Figure_methods.
Context (U : ObjTable) (env : Env).
(** The module global [tmpdir], [urllib2.quote], and the figure. *)
Context (tmpdir : string) (quote : string → string) (fig : Figure).

(** [Figure._generate_DB]: the store gets a copy of the figure's list. *)
Definition _generate_DB (gfuel : nat) (r : reply) : M unit :=
  _generate U env gfuel r (fig_name fig) (_drawingObjects fig ++ option_list (draw fig))
            (fig_items fig);;
  mret tt.

(** [Figure.save_database] with [regen] left at its default. *)
Definition save_database (gfuel : nat) (r : reply) (filename : string)
    : M (option string) :=
  _generate_DB gfuel r;;
  save env filename.

(** [Figure.open_viewer] with its default arguments, as [send_command]
    calls it; [k] numbers the attempt.  What it returns (an [HTML] link or
    [None]) is not used. *)
Definition open_viewer (gfuel : nat) (w : Outside) (k : nat) : M unit :=
  let temp :=
    let fname := path_join tmpdir ("gluciferDB" +:+ db_id fig +:+ ".gldb") in
    save_database gfuel (viewer_reply w k) fname;;
    mret fname in
  fname ← match db_filename fig with
          | Some f => if String.eqb f "" then temp else mret f
          | None => temp
          end;
  proc ← gets _viewerProc;
  if proc && poll w k then mret tt
  else if lavavu env && (rank env =? 0)%nat then
    step ← gets step;
    act (emit (EvPopen [_lvbin fig; "-" +:+ str_Z step; "-p9999"; "-q90"; fname]));;
    match popen w k with
    | Some e => raise e
    | None =>
        act (set_viewerProc true);;
        if ipython w then mret tt
        else raise (ImportError "No module named IPython.display")
    end
  else mret tt.

(** [Figure.send_command].  The bare [except:] catches whatever the
    request raises; [open_viewer] is called before the [try]. *)
Fixpoint send_command (fuel gfuel : nat) (w : Outside) (attempt : nat)
    (cmd : string) (retry : bool) : M unit :=
  match fuel with
  | O => diverge
  | S fuel' =>
      if lavavu env && (rank env =? 0)%nat then
        open_viewer gfuel w attempt;;
        act (emit (EvUrlOpen ("http://localhost:9999/command=" +:+ quote cmd)));;
        if urlopen w attempt then mret tt
        else
          act (emit (EvPrint ("Send command '" +:+ cmd +:+ "' failed, no response")));;
          if retry then
            act (emit (EvPrint "... retrying in 1s ..."));;
            act (emit (EvSleep 1));;
            send_command fuel' gfuel w (S attempt) cmd false
          else
            act (emit (EvPrint "... failed, skipping ..."))
      else mret tt
  end.

End Figure_methods.

(** ** Definitions used to state the properties *)

(** Induction on values through the nested lists. *)
Section value_ind.
Context (P : value → Prop).
Context (HNone : P VNone) (HBool : ∀ b, P (VBool b)) (HInt : ∀ z, P (VInt z))
        (HStr : ∀ s, P (VStr s))
        (HTuple : ∀ l, Forall P l → P (VTuple l))
        (HList : ∀ l, Forall P l → P (VList l)).

Fixpoint value_ind (v : value) : P v :=
  let fix all (l : list value) : Forall P l :=
    match l with
    | [] => Forall_nil_2 P
    | x :: xs => Forall_cons_2 P x xs (value_ind x) (all xs)
    end in
  match v with
  | VNone => HNone
  | VBool b => HBool b
  | VInt z => HInt z
  | VStr s => HStr s
  | VTuple l => HTuple l (all l)
  | VList l => HList l (all l)
  end.
End value_ind.

(** The element-wise comparison inside [py_eq]. *)
Fixpoint seq_eq (l1 l2 : list value) : bool :=
  match l1, l2 with
  | [], [] => true
  | x :: xs, y :: ys => py_eq x y && seq_eq xs ys
  | _, _ => false
  end.

(** Canonical representative of a value up to [==]: booleans become the
    integers they equal. *)
Fixpoint norm (v : value) : value :=
  match v with
  | VBool b => VInt (if b then 1 else 0)
  | VTuple l => VTuple (map norm l)
  | VList l => VList (map norm l)
  | _ => v
  end.

(** The states handed to [lucDatabase_WriteState], in order. *)
Definition written_of (e : event) : option (string * written) :=
  match e with
  | EvWriteState figname w => Some (figname, w)
  | _ => None
  end.

Definition writes (t : list event) : list (string * written) := omap written_of t.

(** [self._objects.append(obj)] unless [obj] is there already. *)
Definition add_object (l : list oid) (obj : oid) : list oid :=
  if bool_decide (obj ∈ l) then l else l ++ [obj].

(** Colour bars carry no colour bar of their own, as [ColourBar.__init__]
    builds them. *)
Definition flat_colourbars (U : ObjTable) : Prop :=
  ∀ p c, _colourBar U p = Some c → _colourBar U c = None.

(** Whether the local object with properties [objprops] carries the name
    [n]. *)
Definition override_matches (n : value) (objprops : dict) : bool :=
  match objprops !! "name" with
  | Some m => py_eq n m
  | None => false
  end.

(** Reconciliation of one persisted descriptor as the specification words
    it: hidden unless a local object has its name; then every such object's
    properties are merged in, in order, and the descriptor is shown. *)
Definition reconciled (overrides : list dict) (dbobj : dict) : dict :=
  match dbobj !! "name" with
  | None => <["visible" := VBool false]> dbobj
  | Some n =>
      match filter (λ o, override_matches n o = true) overrides with
      | [] => <["visible" := VBool false]> dbobj
      | ms => <["visible" := VBool true]> (foldl update dbobj ms)
      end
  end.

(** A call of [Store._generate] with the viewer as it is during the call. *)
Record call : Type := mkCall {
  c_reply : reply;
  c_figname : string;
  c_objects : list oid;
  c_props : dict
}.

(** A sequence of [_generate] calls on one store.  The caller may catch an
    exception and go on; a call that does not return ends the run. *)
Fixpoint run_calls (U : ObjTable) (env : Env) (fuel : nat) (calls : list call)
    (s : State) : option State :=
  match calls with
  | [] => Some s
  | c :: rest =>
      match _generate U env fuel (c_reply c) (c_figname c) (c_objects c) (c_props c) s with
      | (_, Diverge) => None
      | (s', _) => run_calls U env fuel rest s'
      end
  end.

(** The fields of the state that the two first loops of [_generate] leave
    alone. *)
Definition same_outside (s s' : State) : Prop :=
  step s' = step s ∧ _viewonly s' = _viewonly s ∧ register s' = register s ∧
  db_open s' = db_open s ∧ viewer s' = viewer s ∧ timesteps s' = timesteps s ∧
  trace s' = trace s.

(** Number of iterations the first loop needs when colour bars are flat. *)
Definition merge_cost (U : ObjTable) (pending : list oid) : nat :=
  length pending + length (filter (λ obj, is_Some (_colourBar U obj)) pending).

(** What holds of a store between calls: no object is listed twice and no
    listed object is left with a parent. *)
Definition store_inv (s : State) : Prop :=
  NoDup (_objects s) ∧ ∀ x, x ∈ _objects s → parent s !! x = None.

(** How the geometry output of a live call ends, over the store's objects. *)
Definition live_outcome (U : ObjTable) (env : Env) (r : reply) (objs : list oid)
    : outcome unit :=
  if lavavu env && (rank env =? 0)%nat then
    match r with
    | ViewerError msg => Raise (RuntimeError msg)
    | Figures _ _ =>
        match head (omap (render_raises U) objs) with
        | Some e => Raise e
        | None => Return tt
        end
    end
  else Return tt.

(** The requests and the sleeps among the outside calls, in order. *)
Definition net_of (e : event) : option (string + Z) :=
  match e with
  | EvUrlOpen url => Some (inl url)
  | EvSleep seconds => Some (inr seconds)
  | _ => None
  end.

Definition net_calls (t : list event) : list (string + Z) := omap net_of t.

(** ** Worked examples *)

(** Object [1] is a surface with colour bar [5]; the other objects are
    surfaces without one. *)
Definition ex_table : ObjTable :=
  mkObjTable (λ o, if (o =? 1)%nat then Some 5%nat else None)
             (λ o, if (o =? 5)%nat then "lucDrawingObject" else "lucScalarField")
             (λ _, true) (λ _, None).

Definition root_env : Env := mkEnv true 0.
Definition other_env : Env := mkEnv true 1.

(** A live store with the colour bar's defaults set. *)
Definition live_store : State :=
  set_props 5%nat {[ "colourbar" := VInt 1 ]} (Store_init None false (λ _, false)).

(** A store opened on an existing file for viewing; the local object [7] is
    named ["B"] and coloured red. *)
Definition view_store : State :=
  set_props 7%nat {[ "name" := VStr "B"; "colour" := VStr "red" ]}
            (Store_init (Some "vis") true (λ _, true)).

(** Two persisted figures; the first holds [A] (shown) and [B] (hidden). *)
Definition ex_document : list FigureState :=
  [ mkFigureState "Figure_1" {[ "title" := VStr "one" ]} [ {[ "title" := VStr "one" ]} ]
      [ {[ "name" := VStr "A"; "visible" := VBool true ]};
        {[ "name" := VStr "B"; "visible" := VBool false ]} ];
    mkFigureState "Figure_2" {[ "title" := VStr "two" ]} [ {[ "title" := VStr "two" ]} ] [] ].

(** The view-only call of the specification's scenario, and one for a
    figure that the document does not hold. *)
Definition view_result : State * outcome (list oid) :=
  _generate ex_table root_env 4 (Figures ex_document []) "Figure_1" [7%nat]
            {[ "title" := VStr "new" ]} view_store.

Definition view_missing : State * outcome (list oid) :=
  _generate ex_table root_env 4 (Figures ex_document []) "Missing" []
            {[ "title" := VStr "new" ]} view_store.

(** Two live calls on one store: a figure with objects [1] and [2], then a
    figure with object [3] alone. *)
Definition live_result1 : State * outcome (list oid) :=
  _generate ex_table root_env 4 (Figures [] []) "Figure_1" [1%nat; 2%nat] ∅ live_store.

Definition live_result2 : State * outcome (list oid) :=
  _generate ex_table root_env 4 (Figures [] []) "Figure_2" [3%nat] ∅ live_result1.1.

Definition ex_calls : list call :=
  [ mkCall (Figures [] []) "Figure_2" [3%nat] ∅;
    mkCall (Figures [] []) "Figure_1" [1%nat; 2%nat] ∅ ].

Definition live_run : State :=
  default live_store (run_calls ex_table root_env 4 ex_calls live_result1.1).

(** A figure on a store with a file name. *)
Definition ex_figure : Figure :=
  mkFigure "Figure_1" ∅ [1%nat; 2%nat] None (Some "vis.gldb") "0" "/opt/uw/bin/LavaVu".

(** A viewer that misses the first request and answers the second; the
    process started at the first attempt still runs at the second. *)
Definition ex_outside : Outside :=
  mkOutside (λ k, (k =? 1)%nat) (λ _, true) (λ _, None) (λ _, Figures [] []) true.

(** A viewer whose process is gone by the second attempt and cannot be
    started again. *)
Definition dead_outside : Outside :=
  mkOutside (λ _, false) (λ _, false)
            (λ k, if (k =? 0)%nat then None else Some (OSError "[Errno 2] No such file or directory"))
            (λ _, Figures [] []) true.

(** ** File names of the store *)

(** [s[0:n]] *)
Fixpoint str_take (n : nat) (s : string) : string :=
  match n, s with
  | S n', String c s' => String c (str_take n' s')
  | _, _ => EmptyString
  end.

(** [s[0:-n]] for a positive [n]. *)
Definition str_chop (n : nat) (s : string) : string :=
  str_take (String.length s - n) s.

(** The test on file names that [Store.__init__] and [Store.save] share. *)
Definition has_db_extension (f : string) : bool :=
  endswith (lower f) ".gldb" || endswith (lower f) ".db".

(** What [Store.__init__] keeps of its arguments: [self.filename],
    [self._split] and [self._viewonly]. *)
Record StoreConfig : Type := mkStoreConfig {
  sc_filename : option string;
  sc_split : bool;
  sc_viewonly : bool
}.

(** [Store.__init__], with [None] and the empty string as the two falsy file
    names. *)
Definition Store_config (filename : option string) (split view : bool)
    (isfile : string → bool) : StoreConfig :=
  let filename :=
    match filename with
    | Some f =>
        if negb (String.eqb f "") && negb (endswith (lower f) ".gldb")
           && negb (endswith (lower f) ".db")
        then Some (f +:+ ".gldb") else Some f
    | None => None
    end in
  let named := match filename with Some f => negb (String.eqb f "") | None => false end in
  let split := if named then split else false in
  let viewonly :=
    match filename with
    | Some f => view && negb (String.eqb f "") && isfile f
    | None => false
    end in
  mkStoreConfig filename split viewonly.

(** The base name [Store._add_to_stg_dict] hands to the native database. *)
Definition stg_filename (filename : option string) : option string :=
  match filename with
  | Some f =>
      if String.eqb f "" then Some f
      else
        let f := if endswith (lower f) ".gldb" then str_chop 5 f else f in
        let f := if endswith (lower f) ".db" then str_chop 3 f else f in
        Some f
  | None => None
  end.

(** [Store._add_to_stg_dict] on the component's entry, after the parent
    class has made it. *)
Definition _add_to_stg_dict (c : StoreConfig) (component : dict) : dict :=
  update component
    {[ "filename" := match stg_filename (sc_filename c) with
                     | Some f => VStr f
                     | None => VNone
                     end;
       "splitTransactions" := VBool true;
       "singleFile" := VBool (negb (sc_split c));
       "viewonly" := VBool (sc_viewonly c) ]}.

(** ** Further examples *)

(** Every object is its own colour bar. *)
Definition cyclic_table : ObjTable :=
  mkObjTable (λ o, Some o) (λ _, "lucScalarField") (λ _, false) (λ _, None).

(** Whether a persisted descriptor has a ["name"]. *)
Definition has_name (d : dict) : bool := bool_decide (is_Some (d !! "name")).

(** ** Names built from positions *)

(** The store's objects are named after their positions and no other
    object is named: what holds of a store whose objects the user never
    named. *)
Definition names_by_index (s : State) : Prop :=
  NoDup (_objects s) ∧
  (∀ i obj, _objects s !! i = Some obj →
            ∃ tag, get_props s obj !! "name" = Some (VStr (tag +:+ "_" +:+ str i))) ∧
  (∀ obj, obj ∉ _objects s → get_props s obj !! "name" = None).

(** ** [Figure] and [Viewer] *)

(** The choice of the name in [Figure.__init__]; [_id] is the class counter
    [Figure._id].  Gives the name and the counter afterwards. *)
Definition Figure_name (name : value) (kwargs : dict) (_id : nat) : outcome (value * nat) :=
  if truthy name then
    match name with
    | VStr _ => Return (name, _id)
    | _ => Raise (TypeError "'name' object passed in must be of python type 'str'")
    end
  else
    match kwargs !! "name" with
    | Some n => Return (n, _id)
    | None => Return (VStr ("Figure_" +:+ str _id), S _id)
    end.

(** Figures made one after the other, each from its [name] and [kwargs]. *)
Fixpoint Figure_names (requests : list (value * dict)) (_id : nat)
    : outcome (list value * nat) :=
  match requests with
  | [] => Return ([], _id)
  | (name, kwargs) :: rest =>
      match Figure_name name kwargs _id with
      | Return (n, _id') =>
          match Figure_names rest _id' with
          | Return (ns, _id'') => Return (n :: ns, _id'')
          | Raise e => Raise e
          | Diverge => Diverge
          end
      | Raise e => Raise e
      | Diverge => Diverge
      end
  end.

(** [Viewer.next]: [keys] is [list(self)] and [_index] the counter.  Gives
    the key of the figure returned and the counter afterwards. *)
Definition Viewer_next (keys : list string) (_index : nat) : outcome (string * nat) :=
  let _index := if (length keys <=? _index)%nat then 0%nat else _index in
  match keys !! _index with
  | Some key => Return (key, S _index)
  | None => Raise (IndexError "list index out of range")
  end.

(** [k] calls of [Viewer.next] in a row. *)
Fixpoint Viewer_nexts (keys : list string) (_index : nat) (k : nat)
    : outcome (list string * nat) :=
  match k with
  | O => Return ([], _index)
  | S k' =>
      match Viewer_next keys _index with
      | Return (key, _index') =>
          match Viewer_nexts keys _index' k' with
          | Return (l, i) => Return (key :: l, i)
          | Raise e => Raise e
          | Diverge => Diverge
          end
      | Raise e => Raise e
      | Diverge => Diverge
      end
  end.

(** A fresh live store, two calls on it, and a store emptied between two
    figures. *)
Definition fresh_store : State := Store_init None false (λ _, false).

Definition fresh_calls : list call :=
  [ mkCall (Figures [] []) "Figure_1" [1%nat; 2%nat] ∅;
    mkCall (Figures [] []) "Figure_2" [3%nat] ∅ ].

Definition fresh_run : State :=
  default fresh_store (run_calls ex_table root_env 4 fresh_calls fresh_store).

Definition two_named : State :=
  (_generate ex_table root_env 4 (Figures [] []) "Figure_1" [4%nat; 2%nat] ∅ fresh_store).1.

Definition after_empty : State * outcome (list oid) :=
  _generate ex_table root_env 4 (Figures [] []) "Figure_2" [2%nat; 3%nat] ∅ (empty two_named).

(** Three figures, the second one named by the user. *)
Definition ex_requests : list (value * dict) :=
  [ (VNone, ∅); (VStr "mine", ∅); (VNone, ∅) ].

(** ** Facts on values and dictionaries *)

Lemma py_eq_tuple l1 l2 : py_eq (VTuple l1) (VTuple l2) = seq_eq l1 l2.
Proof. simpl. revert l2. induction l1 as [|x xs IH]; intros [|y ys]; simpl; try done; by rewrite IH. Qed.

Lemma py_eq_list l1 l2 : py_eq (VList l1) (VList l2) = seq_eq l1 l2.
Proof. simpl. revert l2. induction l1 as [|x xs IH]; intros [|y ys]; simpl; try done; by rewrite IH. Qed.

Lemma seq_eq_norm l1 l2 :
  Forall (λ a, ∀ b, py_eq a b = true ↔ norm a = norm b) l1 →
  seq_eq l1 l2 = true ↔ map norm l1 = map norm l2.
Proof.
  intros H. revert l2. induction H as [|x xs Hx _ IH]; intros [|y ys]; simpl; try done.
  rewrite andb_true_iff, Hx, IH. split; [by intros [-> ->]|by intros [= -> ->]].
Qed.

Lemma py_eq_norm a b : py_eq a b = true ↔ norm a = norm b.
Proof.
  revert b. induction a as [|x|x|x|l IH|l IH] using value_ind; intros b.
  - destruct b as [|y|y|y|l|l]; simpl; try destruct y; by split.
  - destruct b as [|y|y|y|l|l]; simpl; try by split.
    + destruct x, y; by split.
    + rewrite Z.eqb_eq. split; [by intros ->|by intros [= ->]].
  - destruct b as [|y|y|y|l|l]; simpl; try by split.
    + rewrite Z.eqb_eq. split; [by intros ->|by intros [= ->]].
    + rewrite Z.eqb_eq. split; [by intros ->|by intros [= ->]].
  - destruct b as [|y|y|y|l|l]; simpl; try by split.
    + rewrite String.eqb_eq. split; [by intros ->|by intros [= ->]].
  - destruct b as [|y|y|y|l'|l']; try (simpl; try destruct y; by split).
    rewrite py_eq_tuple, (seq_eq_norm _ _ IH). simpl. split; [by intros ->|by intros [= ->]].
  - destruct b as [|y|y|y|l'|l']; try (simpl; try destruct y; by split).
    rewrite py_eq_list, (seq_eq_norm _ _ IH). simpl. split; [by intros ->|by intros [= ->]].
Qed.

Lemma py_eq_refl a : py_eq a a = true.
Proof. by apply py_eq_norm. Qed.

(** Values that are [==] compare alike with any third value. *)
Lemma py_eq_trans_l a b c : py_eq a b = true → py_eq b c = py_eq a c.
Proof.
  intros Hab%py_eq_norm.
  destruct (py_eq b c) eqn:Hbc, (py_eq a c) eqn:Hac; try done.
  - apply py_eq_norm in Hbc. assert (py_eq a c = true) by (apply py_eq_norm; congruence). congruence.
  - apply py_eq_norm in Hac. assert (py_eq b c = true) by (apply py_eq_norm; congruence). congruence.
Qed.


Lemma lookup_update (d new : dict) (k : string) :
  update d new !! k = match new !! k with Some v => Some v | None => d !! k end.
Proof. unfold update. rewrite lookup_union. by destruct (new !! k), (d !! k). Qed.

Lemma lookup_truthy_items (d : dict) (k : string) :
  truthy_items d !! k = match d !! k with
                        | Some v => if truthy v then Some v else None
                        | None => None
                        end.
Proof.
  unfold truthy_items. rewrite map_lookup_filter.
  destruct (d !! k) as [v|]; simpl; [|done].
  case_guard; simpl in *; by destruct (truthy v).
Qed.

(** ** [Drawing._updateProperties] *)

(** C10.  Merging defaults with [overwrite=False]: a key whose existing value
    is truthy keeps it; a key whose existing value is falsy, like a key that
    did not exist, gets whatever the incoming defaults hold for it (nothing
    when they hold nothing). *)
Theorem updateProperties_keeps_truthy_only (existing newProps : dict) (k : string) :
  _updateProperties existing newProps false !! k =
    match existing !! k with
    | Some v => if truthy v then Some v else newProps !! k
    | None => newProps !! k
    end.
Proof.
  unfold _updateProperties. rewrite lookup_update, lookup_truthy_items.
  destruct (existing !! k) as [v|]; [|done]. by destruct (truthy v).
Qed.

(** ** The first loop of [_generate] *)

Lemma same_outside_refl s : same_outside s s.
Proof. by repeat split. Qed.

Lemma same_outside_trans s1 s2 s3 :
  same_outside s1 s2 → same_outside s2 s3 → same_outside s1 s3.
Proof. unfold same_outside. intros (?&?&?&?&?&?&?) (?&?&?&?&?&?&?). repeat split; congruence. Qed.

Lemma elem_of_add_objects (l run : list oid) (x : oid) :
  x ∈ foldl add_object l run ↔ x ∈ l ∨ x ∈ run.
Proof.
  revert l. induction run as [|obj run IH]; intros l; simpl.
  - rewrite elem_of_nil. tauto.
  - rewrite IH, elem_of_cons. unfold add_object. case_bool_decide.
    + split; [tauto|]. intros [?|[->|?]]; tauto.
    + rewrite elem_of_app, list_elem_of_singleton. tauto.
Qed.

Lemma add_objects_prefix (l run : list oid) : ∃ ext, foldl add_object l run = l ++ ext.
Proof.
  revert l. induction run as [|obj run IH]; intros l; simpl.
  - exists []. by rewrite app_nil_r.
  - destruct (IH (add_object l obj)) as [ext ->]. unfold add_object. case_bool_decide.
    + by exists ext.
    + exists (obj :: ext). by rewrite <- app_assoc.
Qed.

Lemma add_objects_NoDup (l run : list oid) : NoDup l → NoDup (foldl add_object l run).
Proof.
  revert l. induction run as [|obj run IH]; intros l Hl; simpl; [done|].
  apply IH. unfold add_object. case_bool_decide; [done|].
  apply NoDup_app. split_and!; [done| |apply NoDup_singleton].
  intros x Hx ->%list_elem_of_singleton. done.
Qed.

Lemma add_objects_known (l run : list oid) :
  (∀ x, x ∈ run → x ∈ l) → foldl add_object l run = l.
Proof.
  revert l. induction run as [|obj run IH]; intros l Hl; simpl; [done|].
  unfold add_object. rewrite bool_decide_eq_true_2 by (apply Hl; left).
  apply IH. intros x Hx. apply Hl. by right.
Qed.

Section merge.
Context (U : ObjTable).

Lemma visit_objects obj s : _objects (visit U obj s) = add_object (_objects s) obj.
Proof.
  unfold visit, add_object. destruct (_colourBar U obj); simpl; by case_bool_decide.
Qed.

Lemma visit_properties obj s : properties (visit U obj s) = properties s.
Proof. unfold visit. destruct (_colourBar U obj); simpl; by case_bool_decide. Qed.

Lemma visit_parent obj s :
  parent (visit U obj s) =
    delete obj (match _colourBar U obj with
                | Some cb => <[cb := obj]> (parent s)
                | None => parent s
                end).
Proof. unfold visit. destruct (_colourBar U obj); simpl; by case_bool_decide. Qed.

Lemma visit_outside obj s : same_outside s (visit U obj s).
Proof.
  unfold visit. destruct (_colourBar U obj); simpl; case_bool_decide; by repeat split.
Qed.

(** What one run of the loop does: [run] lists the objects visited. *)
Lemma merge_loop_inv fuel visited pending s objs s' :
  merge_loop U fuel visited pending s = Some (objs, s') →
  ∃ run,
    objs = visited ++ run ∧
    (∀ x, x ∈ pending → x ∈ run) ∧
    (∀ x, x ∈ run → x ∈ pending ∨ ∃ p, p ∈ run ∧ _colourBar U p = Some x) ∧
    (∀ p c, p ∈ run → _colourBar U p = Some c → c ∈ run) ∧
    (∀ x, x ∈ run → parent s' !! x = None) ∧
    (∀ x, x ∉ run → parent s' !! x = parent s !! x) ∧
    properties s' = properties s ∧
    same_outside s s' ∧
    _objects s' = foldl add_object (_objects s) run.
Proof.
  revert visited pending s. induction fuel as [|fuel IH]; intros visited pending s.
  - destruct pending; simpl; [|done]. intros [= <- <-]. exists [].
    rewrite app_nil_r. split_and!; try done; try (by intros ? ?%elem_of_nil);
      try (by intros ? ? ?%elem_of_nil); try apply same_outside_refl.
  - destruct pending as [|obj rest]; simpl.
    { intros [= <- <-]. exists []. rewrite app_nil_r.
      split_and!; try done; try (by intros ? ?%elem_of_nil);
        try (by intros ? ? ?%elem_of_nil); try apply same_outside_refl. }
    intros (run & -> & Hpend & Horig & Hclos & Hnone & Hkeep & Hprops & Hout & Hobjs)%IH.
    exists (obj :: run). split_and!.
    + by rewrite <- app_assoc.
    + intros x [->|Hx]%elem_of_cons; [left|right; apply Hpend, elem_of_app; by left].
    + intros x [->|Hx]%elem_of_cons; [left; left|].
      destruct (Horig x Hx) as [[Hr|Hc]%elem_of_app|(p & Hp & Hpc)].
      * left. by right.
      * right. exists obj. split; [left|].
        destruct (_colourBar U obj); simpl in Hc; [|by apply elem_of_nil in Hc].
        by apply list_elem_of_singleton in Hc as ->.
      * right. exists p. split; [by right|done].
    + intros p c [->|Hp]%elem_of_cons Hc.
      * right. apply Hpend, elem_of_app. right. rewrite Hc. simpl. left.
      * right. by eapply Hclos.
    + intros x [->|Hx]%elem_of_cons.
      * destruct (decide (obj ∈ run)) as [Hin|Hin]; [by apply Hnone|].
        rewrite (Hkeep _ Hin), visit_parent. apply lookup_delete_eq.
      * by apply Hnone.
    + intros x [Hne Hx]%not_elem_of_cons.
      rewrite (Hkeep _ Hx), visit_parent, lookup_delete_ne by done.
      destruct (_colourBar U obj) as [cb|] eqn:Hcb; [|done].
      apply lookup_insert_ne. intros ->. apply Hx, Hpend, elem_of_app.
      right. simpl. left.
    + by rewrite Hprops, visit_properties.
    + eapply same_outside_trans; [apply visit_outside|done].
    + by rewrite Hobjs, visit_objects.
Qed.

(** The final content of [objects] does not depend on the store. *)
Lemma merge_loop_list fuel visited pending s objs s' t :
  merge_loop U fuel visited pending s = Some (objs, s') →
  ∃ t', merge_loop U fuel visited pending t = Some (objs, t').
Proof.
  revert visited pending s t. induction fuel as [|fuel IH]; intros visited pending s t.
  - destruct pending; simpl; [|done]. intros [= <- <-]. by eexists.
  - destruct pending as [|obj rest]; simpl.
    + intros [= <- <-]. by eexists.
    + apply IH.
Qed.

Lemma merge_cost_app l1 l2 : merge_cost U (l1 ++ l2) = (merge_cost U l1 + merge_cost U l2)%nat.
Proof. unfold merge_cost. rewrite filter_app, !length_app. lia. Qed.

Lemma merge_cost_le l : (merge_cost U l ≤ 2 * length l)%nat.
Proof. unfold merge_cost. pose proof (length_filter (λ obj, is_Some (_colourBar U obj)) l). lia. Qed.

Lemma merge_cost_cons obj l :
  merge_cost U (obj :: l) =
    S ((match _colourBar U obj with Some _ => 1 | None => 0 end) + merge_cost U l)%nat.
Proof.
  unfold merge_cost. rewrite filter_cons. simpl.
  destruct (_colourBar U obj) as [cb|]; case_decide as H; simpl; try lia.
  - destruct H. by eexists.
  - by destruct H.
Qed.

(** With flat colour bars the loop ends: each object is visited once and
    each colour bar once more. *)
Lemma merge_loop_total fuel visited pending s :
  flat_colourbars U → (merge_cost U pending ≤ fuel)%nat →
  is_Some (merge_loop U fuel visited pending s).
Proof.
  intros Hflat. revert visited pending s.
  induction fuel as [|fuel IH]; intros visited pending s Hfuel.
  - destruct pending; simpl; [done|]. rewrite merge_cost_cons in Hfuel. lia.
  - destruct pending as [|obj rest]; simpl; [done|].
    apply IH. rewrite merge_cost_app. rewrite merge_cost_cons in Hfuel.
    destruct (_colourBar U obj) as [cb|] eqn:Hcb; simpl.
    + rewrite merge_cost_cons, (Hflat _ _ Hcb). unfold merge_cost at 2. simpl. lia.
    + unfold merge_cost at 2. simpl. lia.
Qed.

End merge.

(** ** The naming loop *)

Lemma get_props_set_props_eq obj d s : get_props (set_props obj d s) obj = d.
Proof. unfold get_props, set_props. simpl. by rewrite lookup_insert_eq. Qed.

Lemma get_props_set_props_ne obj d s x :
  x ≠ obj → get_props (set_props obj d s) x = get_props s x.
Proof. intros. unfold get_props, set_props. simpl. by rewrite lookup_insert_ne. Qed.

Lemma get_props_ext s s' x : properties s' = properties s → get_props s' x = get_props s x.
Proof. unfold get_props. by intros ->. Qed.

Section names.
Context (U : ObjTable).

Lemma name_object_frame o obj s :
  _objects (name_object U o obj s) = _objects s ∧
  parent (name_object U o obj s) = parent s ∧
  same_outside s (name_object U o obj s).
Proof. unfold name_object. destruct (_ !! "name"); by repeat split. Qed.

Lemma name_object_other o obj s x :
  x ≠ obj → get_props (name_object U o obj s) x = get_props s x.
Proof.
  intros. unfold name_object. destruct (_ !! "name"); [done|].
  by apply get_props_set_props_ne.
Qed.

Lemma name_object_named o obj s x :
  is_Some (get_props s x !! "name") → get_props (name_object U o obj s) x = get_props s x.
Proof.
  intros Hx. destruct (decide (x = obj)) as [->|]; [|by apply name_object_other].
  unfold name_object. destruct Hx as [n ->]. done.
Qed.

Lemma name_object_self o obj s :
  get_props s obj !! "name" = None →
  get_props (name_object U o obj s) obj =
    <["name" := VStr (default_name U o obj (get_props s obj))]> (get_props s obj).
Proof. intros H. unfold name_object. rewrite H. apply get_props_set_props_eq. Qed.

Lemma name_loop_frame o objs s :
  _objects (name_loop U o objs s) = _objects s ∧
  parent (name_loop U o objs s) = parent s ∧
  same_outside s (name_loop U o objs s).
Proof.
  revert o s. induction objs as [|obj objs IH]; intros o s; simpl.
  - split_and!; [done..|apply same_outside_refl].
  - destruct (IH (S o) (name_object U o obj s)) as (-> & -> & Hout).
    destruct (name_object_frame o obj s) as (-> & -> & Hout').
    split_and!; [done..|by eapply same_outside_trans].
Qed.

(** A name, once there, is kept together with the rest of the properties. *)
Lemma name_loop_named o objs s x :
  is_Some (get_props s x !! "name") → get_props (name_loop U o objs s) x = get_props s x.
Proof.
  revert o s. induction objs as [|obj objs IH]; intros o s Hx; simpl; [done|].
  rewrite IH; rewrite name_object_named; done.
Qed.

Lemma name_loop_notin o objs s x :
  x ∉ objs → get_props (name_loop U o objs s) x = get_props s x.
Proof.
  revert o s. induction objs as [|obj objs IH]; intros o s Hx; simpl; [done|].
  apply not_elem_of_cons in Hx as [? ?]. rewrite IH by done. by apply name_object_other.
Qed.

(** The object at position [i] of a duplicate-free list gets the name
    built from [o + i]. *)
Lemma name_loop_assigns o objs s i obj :
  NoDup objs → objs !! i = Some obj → get_props s obj !! "name" = None →
  get_props (name_loop U o objs s) obj =
    <["name" := VStr (default_name U (o + i) obj (get_props s obj))]> (get_props s obj).
Proof.
  revert o s i. induction objs as [|x objs IH]; intros o s i Hnd Hi Hname; [done|].
  apply NoDup_cons in Hnd as [Hx Hnd]. destruct i as [|i]; simpl in *.
  - injection Hi as ->. rewrite name_loop_named.
    + rewrite name_object_self by done. by rewrite Nat.add_0_r.
    + rewrite name_object_self by done. rewrite lookup_insert_eq. by eexists.
  - assert (obj ≠ x) as Hne.
    { intros ->. apply Hx. by eapply list_elem_of_lookup_2. }
    rewrite (IH (S o) _ i); rewrite ?name_object_other; try done.
    by replace (S o + i)%nat with (o + S i)%nat by lia.
Qed.

Lemma name_loop_all_named o objs s x :
  x ∈ objs → is_Some (get_props (name_loop U o objs s) x !! "name").
Proof.
  revert o s. induction objs as [|obj objs IH]; intros o s Hx; [by apply elem_of_nil in Hx|].
  simpl. destruct (decide (x = obj)) as [->|Hne].
  - rewrite name_loop_named.
    + unfold name_object. destruct (get_props s obj !! "name") eqn:E; [by rewrite E|].
      rewrite get_props_set_props_eq, lookup_insert_eq. by eexists.
    + unfold name_object. destruct (get_props s obj !! "name") eqn:E; [by rewrite E|].
      rewrite get_props_set_props_eq, lookup_insert_eq. by eexists.
  - apply IH. apply elem_of_cons in Hx as [?|?]; done.
Qed.

Lemma name_loop_id o objs s :
  (∀ x, x ∈ objs → is_Some (get_props s x !! "name")) → name_loop U o objs s = s.
Proof.
  revert o s. induction objs as [|obj objs IH]; intros o s H; simpl; [done|].
  assert (name_object U o obj s = s) as ->.
  { unfold name_object. destruct (H obj) as [n ->]; [left|done]. }
  apply IH. intros x Hx. apply H. by right.
Qed.

(** Either way, a name present before the loop is the name after it. *)
Lemma name_loop_keeps_name o objs s x n :
  get_props s x !! "name" = Some n → get_props (name_loop U o objs s) x !! "name" = Some n.
Proof. intros H. rewrite name_loop_named; [done|by eexists]. Qed.

End names.

(** ** Live mode *)

Lemma writes_app t1 t2 : writes (t1 ++ t2) = writes t1 ++ writes t2.
Proof. apply omap_app. Qed.

Lemma is_visible_ext objects s s' x :
  parent s' = parent s → is_visible objects s' x = is_visible objects s x.
Proof. unfold is_visible. by intros ->. Qed.

Lemma is_visible_spec objects s x :
  is_visible objects s x = true ↔
  x ∈ objects ∨ ∃ p, parent s !! x = Some p ∧ p ∈ objects.
Proof.
  unfold is_visible. rewrite orb_true_iff, bool_decide_eq_true.
  destruct (parent s !! x) as [p|].
  - rewrite bool_decide_eq_true. split.
    + intros [?|?]; [by left|right; by exists p].
    + intros [?|(q & [= <-] & ?)]; [by left|by right].
  - split.
    + intros [?|?]; [by left|done].
    + intros [?|(q & ? & ?)]; [by left|done].
Qed.

Lemma clear_register_frame s :
  _objects (clear_register s) = _objects s ∧
  parent (clear_register s) = parent s ∧
  properties (clear_register s) = properties s ∧
  _viewonly (clear_register s) = _viewonly s ∧
  step (clear_register s) = step s ∧
  viewer (clear_register s) = viewer s ∧
  writes (trace (clear_register s)) = writes (trace s).
Proof.
  unfold clear_register. generalize (rev (seq 0 (length (register s)))) as l.
  intros l. revert s. induction l as [|i l IH]; intros s; simpl; [done|].
  destruct (IH (emit (EvRemoveByIndex i) (set_register (take i (register s)) s)))
    as (-> & -> & -> & -> & -> & -> & ->).
  simpl. rewrite writes_app. simpl. by rewrite app_nil_r.
Qed.

Section live.
Context (U : ObjTable) (env : Env).

Lemma write_object_frame objects s obj :
  _objects (write_object U objects s obj) = _objects s ∧
  parent (write_object U objects s obj) = parent s ∧
  _viewonly (write_object U objects s obj) = _viewonly s ∧
  step (write_object U objects s obj) = step s ∧
  viewer (write_object U objects s obj) = viewer s ∧
  writes (trace (write_object U objects s obj)) = writes (trace s).
Proof.
  unfold write_object. destruct (colourMap U obj); simpl;
    rewrite !writes_app; simpl; rewrite ?app_nil_r; done.
Qed.

Lemma write_object_props objects s obj x :
  get_props (write_object U objects s obj) x =
    if decide (x = obj)
    then <["visible" := VBool (is_visible objects s obj)]> (get_props s obj)
    else get_props s x.
Proof.
  unfold write_object, get_props. destruct (colourMap U obj); simpl;
    case_decide as H; subst; by rewrite ?lookup_insert_eq, ?lookup_insert_ne.
Qed.

Lemma write_objects_spec objects l s :
  let s' := foldl (write_object U objects) s l in
  _objects s' = _objects s ∧ parent s' = parent s ∧ _viewonly s' = _viewonly s ∧
  step s' = step s ∧ viewer s' = viewer s ∧
  writes (trace s') = writes (trace s) ∧
  (∀ x, x ∈ l →
     get_props s' x = <["visible" := VBool (is_visible objects s x)]> (get_props s x)) ∧
  (∀ x, x ∉ l → get_props s' x = get_props s x).
Proof.
  revert s. induction l as [|obj l IH]; intros s; simpl.
  - split_and!; try done. by intros ? ?%elem_of_nil.
  - destruct (IH (write_object U objects s obj)) as (-> & -> & -> & -> & -> & -> & Hin & Hout).
    destruct (write_object_frame objects s obj) as (-> & Hpar & -> & -> & -> & ->).
    split_and!; try done.
    + intros x Hx. destruct (decide (x ∈ l)) as [Hl|Hl].
      * rewrite (Hin _ Hl), (is_visible_ext _ _ _ _ Hpar), write_object_props.
        case_decide; subst; [by rewrite insert_insert_eq|done].
      * rewrite (Hout _ Hl), write_object_props.
        apply elem_of_cons in Hx as [->|?]; [|done]. by rewrite decide_True.
    + intros x [Hne Hl]%not_elem_of_cons.
      rewrite (Hout _ Hl), write_object_props. by rewrite decide_False.
Qed.

Lemma lvrun_frame s :
  _objects (lvrun s) = _objects s ∧ parent (lvrun s) = parent s ∧
  properties (lvrun s) = properties s ∧ _viewonly (lvrun s) = _viewonly s ∧
  step (lvrun s) = step s ∧ writes (trace (lvrun s)) = writes (trace s).
Proof.
  unfold lvrun. destruct (viewer s); simpl; rewrite writes_app; simpl;
    by rewrite app_nil_r.
Qed.

Lemma open_lv_frame r s :
  let s' := (open_lv r s).1 in
  _objects s' = _objects s ∧ parent s' = parent s ∧
  properties s' = properties s ∧ _viewonly s' = _viewonly s ∧
  step s' = step s ∧ writes (trace s') = writes (trace s).
Proof.
  destruct r as [states steps|msg]; simpl; [apply lvrun_frame|].
  rewrite writes_app. destruct (viewer s); simpl; by rewrite app_nil_r.
Qed.

Lemma render_objects_frame l s :
  let s' := (render_objects U l s).1 in
  _objects s' = _objects s ∧ parent s' = parent s ∧
  properties s' = properties s ∧ _viewonly s' = _viewonly s ∧
  step s' = step s ∧ writes (trace s') = writes (trace s).
Proof.
  revert s. induction l as [|obj l IH]; intros s; simpl; [done|].
  unfold mbind, M_bind, act. simpl.
  assert (writes (trace s ++ [EvRender obj]) = writes (trace s)) as Hw.
  { rewrite writes_app. simpl. by rewrite app_nil_r. }
  destruct (render_raises U obj) as [e|]; simpl; [done|].
  destruct (IH (emit (EvRender obj) s)) as (-> & -> & -> & -> & -> & ->). done.
Qed.

Lemma render_objects_outcome l s :
  (render_objects U l s).2 =
    match head (omap (render_raises U) l) with
    | Some e => Raise e
    | None => Return tt
    end.
Proof.
  revert s. induction l as [|obj l IH]; intros s; simpl; [done|].
  unfold mbind, M_bind, act. simpl.
  destruct (render_raises U obj) as [e|]; simpl; [done|]. apply IH.
Qed.

Lemma render_live_frame r s :
  let s' := (render_live U env r s).1 in
  _objects s' = _objects s ∧ parent s' = parent s ∧
  properties s' = properties s ∧ _viewonly s' = _viewonly s ∧
  step s' = step s ∧ writes (trace s') = writes (trace s).
Proof.
  unfold render_live. destruct (lavavu env && (rank env =? 0)%nat); [|done].
  unfold mbind, M_bind, gets.
  pose proof (open_lv_frame r s) as Hlv. cbv zeta in Hlv.
  destruct (open_lv r s) as [s1 [[]|e|]]; simpl in *; [|done..].
  pose proof (render_objects_frame (_objects s1) s1) as Hr. cbv zeta in Hr.
  destruct Hlv as (Ho & Hp & Hpr & Hv & Hst & Hw).
  destruct Hr as (Ho' & Hp' & Hpr' & Hv' & Hst' & Hw').
  split_and!; congruence.
Qed.

Lemma render_live_outcome r s :
  (render_live U env r s).2 = live_outcome U env r (_objects s).
Proof.
  unfold render_live, live_outcome.
  destruct (lavavu env && (rank env =? 0)%nat); [|done].
  unfold mbind, M_bind, gets. destruct r as [states steps|msg]; simpl; [|done].
  destruct (lvrun_frame s) as (<- & _).
  pose proof (render_objects_outcome (_objects (lvrun s)) (lvrun s)) as Hr.
  by destruct (render_objects U (_objects (lvrun s)) (lvrun s)) as [s2 [[]|e|]].
Qed.

Lemma write_live_spec figname objects props s :
  let s' := write_live U figname objects props s in
  _objects s' = _objects s ∧ parent s' = parent s ∧ _viewonly s' = _viewonly s ∧
  step s' = step s ∧
  (∀ x, x ∈ _objects s →
     get_props s' x = <["visible" := VBool (is_visible objects s x)]> (get_props s x)) ∧
  (∀ x, x ∉ _objects s → get_props s' x = get_props s x) ∧
  writes (trace s') =
    writes (trace s) ++ [(figname, WExport (_get_state (_objects s') props s'))].
Proof.
  set (s1 := emit (EvSetTimeStep (step s)) s).
  set (s2 := clear_register s1).
  set (s3 := foldl (write_object U objects) s2 (_objects s2)).
  set (s5 := emit (EvWriteState figname (WExport (_get_state (_objects s3) props (emit EvExecute s3))))
                  (emit EvExecute s3)).
  assert (write_live U figname objects props s = s5) as Heq by done.
  assert (_objects s1 = _objects s ∧ parent s1 = parent s ∧ properties s1 = properties s ∧
          _viewonly s1 = _viewonly s ∧ step s1 = step s ∧
          writes (trace s1) = writes (trace s)) as (Ho1 & Hp1 & Hpr1 & Hv1 & Hst1 & Hw1).
  { subst s1. simpl. rewrite writes_app. simpl. by rewrite app_nil_r. }
  destruct (clear_register_frame s1) as (Ho2 & Hp2 & Hpr2 & Hv2 & Hst2 & _ & Hw2).
  fold s2 in Ho2, Hp2, Hpr2, Hv2, Hst2, Hw2.
  destruct (write_objects_spec objects (_objects s2) s2)
    as (Ho3 & Hp3 & Hv3 & Hst3 & _ & Hw3 & Hin & Hout).
  fold s3 in Ho3, Hp3, Hv3, Hst3, Hw3, Hin, Hout.
  assert (∀ x, get_props s2 x = get_props s x) as Hg2.
  { intros x. apply get_props_ext. congruence. }
  assert (∀ x, is_visible objects s2 x = is_visible objects s x) as Hvis.
  { intros x. apply is_visible_ext. congruence. }
  assert (_objects s5 = _objects s3 ∧ parent s5 = parent s3 ∧ _viewonly s5 = _viewonly s3 ∧
          step s5 = step s3 ∧ properties s5 = properties s3 ∧
          writes (trace s5) =
            writes (trace s3) ++ [(figname, WExport (_get_state (_objects s5) props s5))])
    as (Ho5 & Hp5 & Hv5 & Hst5 & Hpr5 & Hw5).
  { subst s5. simpl. rewrite !writes_app. simpl. by rewrite !app_nil_r. }
  assert (∀ x, get_props s5 x = get_props s3 x) as Hg5.
  { intros x. by apply get_props_ext. }
  cbv zeta. rewrite Heq. split_and!; [congruence..| | |].
  - intros x Hx. rewrite Hg5, Hin by congruence. by rewrite Hvis, Hg2.
  - intros x Hx. rewrite Hg5, Hout by congruence. apply Hg2.
  - rewrite Hw5. rewrite Hw3, Hw2, Hw1. done.
Qed.

Lemma generate_live_eq r figname objects props s :
  generate_live U env r figname objects props s =
    render_live U env r (write_live U figname objects props s).
Proof. done. Qed.

(** The whole live branch: the store it leaves, whether it returns or
    raises. *)
Lemma generate_live_spec r figname objects props s :
  let s' := (generate_live U env r figname objects props s).1 in
  _objects s' = _objects s ∧ parent s' = parent s ∧ _viewonly s' = _viewonly s ∧
  step s' = step s ∧
  (∀ x, x ∈ _objects s →
     get_props s' x = <["visible" := VBool (is_visible objects s x)]> (get_props s x)) ∧
  (∀ x, x ∉ _objects s → get_props s' x = get_props s x) ∧
  writes (trace s') =
    writes (trace s) ++ [(figname, WExport (_get_state (_objects s') props s'))].
Proof.
  cbv zeta. rewrite generate_live_eq.
  set (s5 := write_live U figname objects props s).
  destruct (write_live_spec figname objects props s) as (Ho5 & Hp5 & Hv5 & Hst5 & Hin & Hout & Hw5).
  fold s5 in Ho5, Hp5, Hv5, Hst5, Hin, Hout, Hw5.
  destruct (render_live_frame r s5) as (Ho & Hp & Hpr & Hv & Hst & Hw).
  set (s' := (render_live U env r s5).1) in *.
  assert (∀ x, get_props s' x = get_props s5 x) as Hg.
  { intros x. by apply get_props_ext. }
  split_and!; try congruence.
  - intros x Hx. rewrite Hg. by apply Hin.
  - intros x Hx. rewrite Hg. by apply Hout.
  - rewrite Hw, Hw5. unfold _get_state. rewrite Ho.
    assert (map (get_props s') (_objects s5) = map (get_props s5) (_objects s5)) as ->; [|done].
    apply map_ext. intros x. apply Hg.
Qed.

(** And how it ends: the viewer and the objects' [render] decide. *)
Lemma generate_live_outcome r figname objects props s :
  (generate_live U env r figname objects props s).2 = live_outcome U env r (_objects s).
Proof.
  rewrite generate_live_eq, render_live_outcome.
  by destruct (write_live_spec figname objects props s) as (-> & _).
Qed.

End live.

(** ** View-only mode *)

Lemma update_insert_absorb (k : string) (w : value) (d o : dict) :
  is_Some (o !! k) → update (<[k := w]> d) o = update d o.
Proof.
  intros [x Hx]. apply map_eq. intros j. rewrite !lookup_update.
  destruct (o !! j) eqn:Hj; [done|].
  apply lookup_insert_ne. intros ->. congruence.
Qed.

Lemma update_insert_commute (k : string) (w : value) (d o : dict) :
  o !! k = None → update (<[k := w]> d) o = <[k := w]> (update d o).
Proof.
  intros Hk. apply map_eq. intros j. rewrite lookup_update.
  destruct (decide (k = j)) as [<-|Hne].
  - by rewrite Hk, !lookup_insert_eq.
  - by rewrite !lookup_insert_ne, lookup_update.
Qed.

(** A value written under [k] before a series of merges is overwritten by
    one written after it. *)
Lemma foldl_update_insert (k : string) (v w : value) (d : dict) (ms : list dict) :
  <[k := v]> (foldl update (<[k := w]> d) ms) = <[k := v]> (foldl update d ms).
Proof.
  revert d. induction ms as [|o ms IH]; intros d; simpl.
  - apply insert_insert_eq.
  - destruct (o !! k) eqn:Hk.
    + rewrite update_insert_absorb; [done|by eexists].
    + rewrite update_insert_commute by done. apply IH.
Qed.

Lemma foldl_update_then_insert (k : string) (v : value) (d : dict) (ms : list dict) :
  ms ≠ [] →
  foldl (λ d o, <[k := v]> (update d o)) d ms = <[k := v]> (foldl update d ms).
Proof.
  revert d. induction ms as [|o ms IH]; intros d Hne; [done|]. simpl.
  destruct ms as [|o' ms]; [done|].
  rewrite IH by done. apply foldl_update_insert.
Qed.

(** The inner loop, in terms of the name the descriptor had on entry. *)
Lemma apply_overrides_spec (n n' : value) (overrides : list dict) (d : dict) :
  d !! "name" = Some n' → py_eq n n' = true →
  Forall (λ o, is_Some (o !! "name")) overrides →
  apply_overrides overrides d =
    Return (foldl (λ d o, <["visible" := VBool true]> (update d o)) d
                  (filter (λ o, override_matches n o = true) overrides)).
Proof.
  intros Hd Hn Hall. revert d n' Hd Hn.
  induction Hall as [|o overrides [m Hm] _ IH]; intros d n' Hd Hn; [done|].
  simpl. unfold match_override. rewrite Hd, Hm.
  assert (override_matches n o = py_eq n' m) as Hom.
  { unfold override_matches. rewrite Hm. symmetry. by apply py_eq_trans_l. }
  rewrite filter_cons. destruct (py_eq n' m) eqn:Hnm.
  - rewrite decide_True by done. simpl. apply (IH _ m).
    + rewrite lookup_insert_ne by done. by rewrite lookup_update, Hm.
    + rewrite <- Hnm. symmetry. by apply py_eq_trans_l.
  - rewrite decide_False by (by rewrite Hom). by apply (IH _ n').
Qed.

Lemma apply_overrides_named (o : dict) (overrides : list dict) (d res : dict) :
  apply_overrides (o :: overrides) d = Return res → is_Some (d !! "name").
Proof.
  simpl. unfold match_override. destruct (d !! "name"); [by eexists|done].
Qed.

(** The outer loop against the specification's wording. *)
Lemma reconcile_objects_spec (overrides : list dict) (dbobjs objs : list dict) :
  overrides ≠ [] → Forall (λ o, is_Some (o !! "name")) overrides →
  reconcile_objects overrides dbobjs = Return objs →
  Forall2 (λ dbobj res, is_Some (dbobj !! "name") ∧ res = reconciled overrides dbobj)
          dbobjs objs.
Proof.
  intros Hne Hall. revert objs.
  induction dbobjs as [|dbobj dbobjs IH]; intros objs; simpl.
  - intros [= <-]. constructor.
  - destruct (apply_overrides overrides (<["visible" := VBool false]> dbobj)) as [res| |] eqn:Hres;
      [|done..].
    destruct (reconcile_objects overrides dbobjs) as [rest| |]; [|done..].
    intros [= <-]. constructor; [|by apply IH].
    assert (is_Some (dbobj !! "name")) as [n Hn].
    { destruct overrides as [|o overrides]; [done|].
      apply apply_overrides_named in Hres. by rewrite lookup_insert_ne in Hres. }
    split; [by eexists|].
    rewrite (apply_overrides_spec n n) in Hres;
      [|by rewrite lookup_insert_ne|apply py_eq_refl|done].
    injection Hres as <-. unfold reconciled. rewrite Hn.
    destruct (filter _ overrides) as [|m ms] eqn:Hms; [done|].
    rewrite foldl_update_then_insert by done. apply foldl_update_insert.
  Qed.

(** Conversely the loop goes through whenever every descriptor is named. *)
Lemma reconcile_objects_total (overrides : list dict) (dbobjs : list dict) :
  Forall (λ o, is_Some (o !! "name")) overrides →
  Forall (λ dbobj, is_Some (dbobj !! "name")) dbobjs →
  ∃ objs, reconcile_objects overrides dbobjs = Return objs.
Proof.
  intros Hall Hdb. induction Hdb as [|dbobj dbobjs [n Hn] _ [objs IH]]; simpl.
  - by eexists.
  - rewrite (apply_overrides_spec n n); [|by rewrite lookup_insert_ne|apply py_eq_refl|done].
    rewrite IH. by eexists.
Qed.

Lemma update_objects_ext objects dbobjs s s' :
  properties s' = properties s →
  update_objects objects dbobjs s' = update_objects objects dbobjs s.
Proof.
  intros H. unfold update_objects. destruct objects; [done|].
  f_equal. apply map_ext. intros x. by apply get_props_ext.
Qed.

(** The search loop finds the first state with the name, if any. *)
Lemma find_state_Some figname states state :
  find_state figname states = Some state ↔
  ∃ pre post, states = pre ++ state :: post ∧ figure state = figname ∧
              Forall (λ st, figure st ≠ figname) pre.
Proof.
  induction states as [|st states IH]; simpl.
  - split; [done|]. intros (pre & post & H & _). by destruct pre.
  - destruct (String.eqb (figure st) figname) eqn:E.
    + apply String.eqb_eq in E. split.
      * intros [= <-]. by exists [], states.
      * intros ([|x pre] & post & H & Hf & Hpre); simplify_eq/=; [done|].
        by apply Forall_cons in Hpre as [? _].
    + apply String.eqb_neq in E. rewrite IH. split.
      * intros (pre & post & -> & Hf & Hpre). exists (st :: pre), post.
        split_and!; [done..|by constructor].
      * intros ([|x pre] & post & H & Hf & Hpre); simplify_eq/=.
        apply Forall_cons in Hpre as [_ Hpre]. by exists pre, post.
Qed.

Lemma find_state_None figname states :
  find_state figname states = None ↔ Forall (λ st, figure st ≠ figname) states.
Proof.
  induction states as [|st states IH]; simpl; [done|].
  destruct (String.eqb (figure st) figname) eqn:E.
  - apply String.eqb_eq in E. split; [done|]. by intros [? _]%Forall_cons.
  - apply String.eqb_neq in E. rewrite IH. split; [by constructor|].
    by intros [_ ?]%Forall_cons.
Qed.

Section view.
Context (U : ObjTable) (env : Env).

Lemma read_state_spec r s :
  ∃ s',
    _read_state env r s =
      (s', Return (if negb (lavavu env) || (0 <? rank env)%nat then None
                   else match r with
                        | Figures states _ => Some states
                        | ViewerError _ => None
                        end)) ∧
    _objects s' = _objects s ∧ parent s' = parent s ∧ properties s' = properties s ∧
    _viewonly s' = _viewonly s ∧ writes (trace s') = writes (trace s) ∧
    (negb (lavavu env) || (0 <? rank env)%nat = true → s' = s).
Proof.
  unfold _read_state. destruct (negb (lavavu env) || (0 <? rank env)%nat).
  { exists s. by repeat split. }
  unfold mbind, M_bind, mret, M_ret, act, gets, lvrun.
  destruct (db_open s), (viewer s) eqn:Hv, r; simpl; rewrite ?Hv; simpl;
    eexists; (split; [reflexivity|]); simpl; rewrite ?writes_app; simpl;
    rewrite ?app_nil_r; by repeat split.
Qed.

(** What the view-only branch does when it returns, and that it writes
    nothing when it raises. *)
Lemma generate_view_spec r figname objects props s s' out :
  generate_view env r figname objects props s = (s', out) →
  _objects s' = _objects s ∧ parent s' = parent s ∧ properties s' = properties s ∧
  _viewonly s' = _viewonly s ∧
  match out with
  | Return _ =>
      ∃ states steps state objs state',
        r = Figures states steps ∧ lavavu env = true ∧ rank env = 0%nat ∧
        locate_state figname states = Return state ∧
        update_objects objects (fs_objects state) s = Return objs ∧
        update_properties props state objs = Return state' ∧
        writes (trace s') = writes (trace s) ++ [(figname, WState state')]
  | Raise _ => writes (trace s') = writes (trace s)
  | Diverge => False
  end.
Proof.
  unfold generate_view. destruct (read_state_spec r s) as (s1 & Hr & Ho & Hp & Hpr & Hv & Hw & Hsame).
  unfold mbind at 1. unfold M_bind at 1. rewrite Hr.
  destruct (negb (lavavu env) || (0 <? rank env)%nat) eqn:Hgate.
  { intros [= <- <-]. by repeat split. }
  apply orb_false_iff in Hgate as [Hlava%negb_false_iff Hrank%Nat.ltb_ge].
  destruct r as [states steps|msg]; [|intros [= <- <-]; by repeat split].
  unfold mbind, M_bind, lift, act.
  destruct (locate_state figname states) as [state| |] eqn:Hloc;
    [|intros [= <- <-]; by repeat split|].
  2:{ unfold locate_state in Hloc. destruct (find_state _ _); [done|]. by destruct (last _). }
  destruct (update_objects objects (fs_objects state) s1) as [objs| |] eqn:Hobjs;
    [|intros [= <- <-]; by repeat split|].
  2:{ unfold update_objects in Hobjs. destruct objects; [done|].
      clear -Hobjs. revert Hobjs. generalize (map (get_props s1) (n :: objects)) as ov.
      intros ov. induction (fs_objects state) as [|d l IH]; simpl; [done|].
      assert (∀ d, apply_overrides ov d ≠ Diverge) as Hap.
      { clear. induction ov as [|o ov IH]; intros d; simpl; [done|].
        unfold match_override. destruct (d !! "name"); [|done].
        destruct (o !! "name"); [|done]. apply IH. }
      destruct (apply_overrides ov _) eqn:E; [|done|by apply Hap in E].
      destruct (reconcile_objects ov l); [done..|]. intros _. by apply IH. }
  destruct (update_properties props state objs) as [state'| |] eqn:Hst;
    [|intros [= <- <-]; by repeat split|].
  2:{ unfold update_properties in Hst. by destruct (fs_views state). }
  intros [= <- <-]. simpl. split_and!; try done.
  exists states, steps, state, objs, state'. split_and!; try done.
  - lia.
  - by rewrite <- (update_objects_ext _ _ _ _ Hpr).
  - rewrite writes_app, Hw. done.
Qed.

(** Conversely the branch returns on rank 0 when the located state has a
    view and, if local objects are passed, every descriptor has a name. *)
Lemma generate_view_total states steps figname objects props s state :
  lavavu env = true → rank env = 0%nat →
  locate_state figname states = Return state → fs_views state ≠ [] →
  objects = [] ∨ Forall (λ dbobj, is_Some (dbobj !! "name")) (fs_objects state) →
  Forall (λ o, is_Some (o !! "name")) (map (get_props s) objects) →
  ∃ s', generate_view env (Figures states steps) figname objects props s = (s', Return tt).
Proof.
  intros Hlava Hrank Hloc Hviews Hdb Hnamed.
  destruct (read_state_spec (Figures states steps) s) as (s1 & Hr & _ & _ & Hpr & _).
  rewrite Hlava, Hrank in Hr. simpl in Hr.
  unfold generate_view, mbind, M_bind, lift, act. rewrite Hr, Hloc.
  assert (∃ objs, update_objects objects (fs_objects state) s1 = Return objs) as [objs ->].
  { rewrite (update_objects_ext _ _ _ _ Hpr). unfold update_objects.
    destruct objects as [|x xs]; [by eexists|].
    destruct Hdb as [?|Hdb]; [done|]. by apply reconcile_objects_total. }
  unfold update_properties. destruct (fs_views state); [done|]. by eexists.
Qed.

End view.

(** ** [Store._generate] as a whole *)

Section generate.
Context (U : ObjTable) (env : Env).

(** A live call returns exactly when its geometry output does. *)
Lemma live_returned {A} r objs (run objects' : A) :
  Return objects' = match live_outcome U env r objs with
                    | Return _ => Return run
                    | Raise e => Raise e
                    | Diverge => Diverge
                    end →
  objects' = run ∧ live_outcome U env r objs = Return tt.
Proof. destruct (live_outcome U env r objs) as [[]|e|]; [|done..]. by intros [= ->]. Qed.

Lemma live_outcome_total r objs : live_outcome U env r objs ≠ Diverge.
Proof.
  unfold live_outcome. destruct (lavavu env && (rank env =? 0)%nat); [|done].
  destruct r; [|done]. by destruct (head _).
Qed.

Lemma generate_inv fuel r figname objects props s s' out :
  _generate U env fuel r figname objects props s = (s', out) →
  (out = Diverge ∧ s' = s ∧ merge_loop U fuel [] objects s = None) ∨
  ∃ objs' s1,
    merge_loop U fuel [] objects s = Some (objs', s1) ∧
    if _viewonly s then
      ∃ o, generate_view env r figname objs' props (name_loop U 0 (_objects s1) s1) = (s', o) ∧
           out = match o with
                 | Return _ => Return objs'
                 | Raise e => Raise e
                 | Diverge => Diverge
                 end
    else s' = (generate_live U env r figname objs' props (name_loop U 0 (_objects s1) s1)).1 ∧
         out = match live_outcome U env r (_objects s1) with
               | Return _ => Return objs'
               | Raise e => Raise e
               | Diverge => Diverge
               end.
Proof.
  unfold _generate. destruct (merge_loop U fuel [] objects s) as [[objs' s1]|] eqn:Hm.
  2:{ intros [= <- <-]. by left. }
  intros Hg. right. exists objs', s1. split; [done|]. revert Hg.
  destruct (name_loop_frame U 0 (_objects s1) s1) as (Ho & _ & _ & Hv & _).
  destruct (merge_loop_inv _ _ _ _ _ _ _ Hm) as (_ & _ & _ & _ & _ & _ & _ & _ & (_ & Hv' & _) & _).
  cbv zeta. rewrite Hv, Hv'. destruct (_viewonly s); simpl.
  - unfold mbind, M_bind, mret, M_ret.
    destruct (generate_view _ _ _ _ _ _) as [s3 [[]| |]] eqn:Hg; intros [= <- <-]; by eexists.
  - unfold mbind, M_bind, mret, M_ret.
    pose proof (generate_live_outcome U env r figname objs' props
                  (name_loop U 0 (_objects s1) s1)) as Hout.
    rewrite Ho in Hout. rewrite <- Hout.
    destruct (generate_live _ _ _ _ _ _ _) as [s3 [[]| |]]; by intros [= <- <-].
Qed.

(** The store after a call that returned or raised. *)
Lemma generate_frame fuel r figname objects props s s' out :
  _generate U env fuel r figname objects props s = (s', out) → out ≠ Diverge →
  ∃ run s1,
    merge_loop U fuel [] objects s = Some (run, s1) ∧
    _objects s' = foldl add_object (_objects s) run ∧
    parent s' = parent s1 ∧
    _viewonly s' = _viewonly s ∧
    (∀ x, get_props s' x =
          let d := get_props (name_loop U 0 (_objects s1) s1) x in
          if _viewonly s then d
          else if bool_decide (x ∈ _objects s')
               then <["visible" := VBool (is_visible run s1 x)]> d else d) ∧
    if _viewonly s then
      match out with
      | Return objs' =>
          objs' = run ∧
          ∃ states steps state objs state',
            r = Figures states steps ∧ lavavu env = true ∧ rank env = 0%nat ∧
            locate_state figname states = Return state ∧
            update_objects run (fs_objects state) s' = Return objs ∧
            update_properties props state objs = Return state' ∧
            writes (trace s') = writes (trace s) ++ [(figname, WState state')]
      | _ => writes (trace s') = writes (trace s)
      end
    else
      out = match live_outcome U env r (_objects s') with
            | Return _ => Return run
            | Raise e => Raise e
            | Diverge => Diverge
            end ∧
      writes (trace s') =
        writes (trace s) ++ [(figname, WExport (_get_state (_objects s') props s'))].
Proof.
  intros Hg Hout. apply generate_inv in Hg as [(-> & _)|(run & s1 & Hm & Hg)]; [done|].
  exists run, s1. split; [done|].
  destruct (merge_loop_inv _ _ _ _ _ _ _ Hm)
    as (run' & Hrun & _ & _ & _ & _ & _ & Hpr1 & (_ & Hv1 & _ & _ & _ & _ & Ht1) & Ho1).
  simpl in Hrun. subst run'.
  set (s2 := name_loop U 0 (_objects s1) s1) in *.
  destruct (name_loop_frame U 0 (_objects s1) s1) as (Ho2 & Hp2 & (_ & Hv2 & _ & _ & _ & _ & Ht2)).
  fold s2 in Ho2, Hp2, Hv2, Ht2.
  destruct (_viewonly s) eqn:Hvo.
  - destruct Hg as (o & Hg & ->).
    apply generate_view_spec in Hg as (Ho & Hp & Hpr & Hv & Hg).
    split_and!; try congruence.
    + intros x. by apply get_props_ext.
    + destruct o as [[]|e|]; [|congruence|done].
      split; [done|].
      destruct Hg as (states & steps & state & objs & state' & -> & ? & ? & ? & Hobjs & ? & Hw).
      exists states, steps, state, objs, state'. split_and!; try done.
      * by rewrite (update_objects_ext _ _ _ _ Hpr).
      * rewrite Hw. congruence.
  - destruct Hg as (-> & ->).
    destruct (generate_live_spec U env r figname run props s2) as (Ho & Hp & Hv & _ & Hin & Hnotin & Hw).
    split_and!; try congruence.
    + intros x. simpl. case_bool_decide as Hx.
      * rewrite Hin by congruence. by rewrite (is_visible_ext run s1 s2 x Hp2).
      * apply Hnotin. congruence.
    + by rewrite Ho, Ho2.
Qed.

(** With flat colour bars and fuel for two visits per object the call
    does return or raise. *)
Lemma generate_total fuel r figname objects props s :
  flat_colourbars U → (2 * length objects ≤ fuel)%nat →
  (_generate U env fuel r figname objects props s).2 ≠ Diverge.
Proof.
  intros Hflat Hfuel.
  destruct (merge_loop_total U fuel [] objects s Hflat) as [[run s1] Hm].
  { pose proof (merge_cost_le U objects). lia. }
  destruct (_generate U env fuel r figname objects props s) as [s' out] eqn:Hg.
  apply generate_inv in Hg as [(_ & _ & ?)|(objs' & s1' & _ & Hg)]; [congruence|].
  simpl. destruct (_viewonly s).
  - destruct Hg as (o & Hg & ->). apply generate_view_spec in Hg as (_ & _ & _ & _ & Hg).
    by destruct o.
  - destruct Hg as (_ & ->). pose proof (live_outcome_total r (_objects s1')).
    by destruct (live_outcome U env r (_objects s1')) as [[]| |].
Qed.

Lemma store_inv_generate fuel r figname objects props s s' out :
  store_inv s → _generate U env fuel r figname objects props s = (s', out) → store_inv s'.
Proof.
  intros [Hnd Hpar] Hg.
  assert (out = Diverge ∨ out ≠ Diverge) as [->|Hout] by (destruct out; by eauto).
  { apply generate_inv in Hg as [(_ & -> & _)|(objs' & s1 & _ & Hg)]; [done|].
    destruct (_viewonly s).
    - destruct Hg as (o & Hg & Ho). apply generate_view_spec in Hg as (_ & _ & _ & _ & Hg).
      by destruct o.
    - destruct Hg as (_ & Ho). pose proof (live_outcome_total r (_objects s1)).
      by destruct (live_outcome U env r (_objects s1)) as [[]| |]. }
  destruct (generate_frame _ _ _ _ _ _ _ _ Hg Hout) as (run & s1 & Hm & Ho & Hp & _).
  destruct (merge_loop_inv _ _ _ _ _ _ _ Hm)
    as (run' & Hrun & _ & _ & _ & Hnone & Hkeep & _).
  simpl in Hrun. subst run'. split.
  - rewrite Ho. by apply add_objects_NoDup.
  - intros x. rewrite Ho, Hp, elem_of_add_objects. intros Hx.
    destruct (decide (x ∈ run)) as [Hr|Hr]; [by apply Hnone|].
    rewrite (Hkeep _ Hr). apply Hpar. by destruct Hx.
Qed.

End generate.

Lemma store_inv_init filename view isfile : store_inv (Store_init filename view isfile).
Proof. split; simpl; [constructor|by intros ? ?%elem_of_nil]. Qed.

(** ** Requests and sleeps: only [send_command] makes them *)

Lemma net_calls_app t1 t2 : net_calls (t1 ++ t2) = net_calls t1 ++ net_calls t2.
Proof. apply omap_app. Qed.

Lemma net_calls_emit e s :
  net_calls (trace (emit e s)) = net_calls (trace s) ++ option_list (net_of e).
Proof. simpl. rewrite net_calls_app. simpl. by destruct (net_of e). Qed.

Ltac net_simpl :=
  simpl; rewrite ?net_calls_app; simpl; rewrite ?app_nil_r.

Lemma clear_register_net s : net_calls (trace (clear_register s)) = net_calls (trace s).
Proof.
  unfold clear_register. generalize (rev (seq 0 (length (register s)))) as l.
  intros l. revert s. induction l as [|i l IH]; intros s; simpl; [done|].
  rewrite IH. by net_simpl.
Qed.

Lemma lvrun_net s : net_calls (trace (lvrun s)) = net_calls (trace s).
Proof. unfold lvrun. destruct (viewer s); by net_simpl. Qed.

Section net.
Context (U : ObjTable) (env : Env).

Lemma write_objects_net objects l s :
  net_calls (trace (foldl (write_object U objects) s l)) = net_calls (trace s).
Proof.
  revert s. induction l as [|obj l IH]; intros s; simpl; [done|].
  rewrite IH. unfold write_object. destruct (colourMap U obj); by net_simpl.
Qed.

Lemma write_live_net figname objects props s :
  net_calls (trace (write_live U figname objects props s)) = net_calls (trace s).
Proof.
  unfold write_live. cbv zeta. rewrite !net_calls_emit, write_objects_net, clear_register_net.
  by net_simpl.
Qed.

Lemma render_objects_net l s :
  net_calls (trace (render_objects U l s).1) = net_calls (trace s).
Proof.
  revert s. induction l as [|obj l IH]; intros s; simpl; [done|].
  unfold mbind, M_bind, act. simpl.
  destruct (render_raises U obj) as [e|]; simpl; [by net_simpl|].
  rewrite IH. by net_simpl.
Qed.

Lemma render_live_net r s :
  net_calls (trace (render_live U env r s).1) = net_calls (trace s).
Proof.
  unfold render_live. destruct (lavavu env && (rank env =? 0)%nat); [|done].
  unfold mbind, M_bind, gets. destruct r as [states steps|msg]; simpl.
  - pose proof (render_objects_net (_objects (lvrun s)) (lvrun s)) as Hr.
    destruct (render_objects U (_objects (lvrun s)) (lvrun s)) as [s2 [[]|e|]];
      simpl in *; by rewrite Hr, lvrun_net.
  - destruct (viewer s); by net_simpl.
Qed.

Lemma generate_live_net r figname objects props s :
  net_calls (trace (generate_live U env r figname objects props s).1) = net_calls (trace s).
Proof. by rewrite generate_live_eq, render_live_net, write_live_net. Qed.

Lemma read_state_net r s :
  net_calls (trace (_read_state env r s).1) = net_calls (trace s).
Proof.
  unfold _read_state. destruct (negb (lavavu env) || (0 <? rank env)%nat); [done|].
  unfold mbind, M_bind, mret, M_ret, act, gets, lvrun.
  destruct (db_open s), (viewer s) eqn:Hv, r; simpl; rewrite ?Hv; by net_simpl.
Qed.

Lemma generate_view_net r figname objects props s :
  net_calls (trace (generate_view env r figname objects props s).1) = net_calls (trace s).
Proof.
  unfold generate_view. pose proof (read_state_net r s) as Hr.
  unfold mbind at 1. unfold M_bind at 1.
  destruct (_read_state env r s) as [s1 [[states|]|e|]]; simpl in *; try done.
  unfold mbind, M_bind, lift, act.
  destruct (locate_state figname states) as [state| |]; simpl; try done.
  destruct (update_objects objects (fs_objects state) s1) as [objs| |]; simpl; try done.
  destruct (update_properties props state objs) as [state'| |]; simpl; try done.
  rewrite <- Hr. by net_simpl.
Qed.

Lemma generate_net fuel r figname objects props s :
  net_calls (trace (_generate U env fuel r figname objects props s).1) = net_calls (trace s).
Proof.
  unfold _generate. destruct (merge_loop U fuel [] objects s) as [[objs' s1]|] eqn:Hm; [|done].
  destruct (merge_loop_inv _ _ _ _ _ _ _ Hm)
    as (_ & _ & _ & _ & _ & _ & _ & _ & (_ & _ & _ & _ & _ & _ & Ht1) & _).
  destruct (name_loop_frame U 0 (_objects s1) s1) as (_ & _ & (_ & _ & _ & _ & _ & _ & Ht2)).
  cbv zeta. set (s2 := name_loop U 0 (_objects s1) s1) in *.
  assert (net_calls (trace s2) = net_calls (trace s)) as <- by congruence.
  unfold mbind, M_bind, mret, M_ret. destruct (negb (_viewonly s2)).
  - pose proof (generate_live_net r figname objs' props s2) as Hl.
    by destruct (generate_live U env r figname objs' props s2) as [s3 [[]|e|]].
  - pose proof (generate_view_net r figname objs' props s2) as Hv.
    by destruct (generate_view env r figname objs' props s2) as [s3 [[]|e|]].
Qed.

Lemma save_net filename s : net_calls (trace (save env filename s).1) = net_calls (trace s).
Proof.
  unfold save. destruct (rank env =? 0)%nat; [|done].
  unfold mbind, M_bind, act. by net_simpl.
Qed.

Context (tmpdir : string) (quote : string → string) (fig : Figure).

Lemma save_database_net gfuel r filename s :
  net_calls (trace (save_database U env fig gfuel r filename s).1) = net_calls (trace s).
Proof.
  unfold save_database, _generate_DB, mbind, M_bind, mret, M_ret.
  pose proof (generate_net gfuel r (fig_name fig)
                (_drawingObjects fig ++ option_list (draw fig)) (fig_items fig) s) as Hg.
  destruct (_generate _ _ _ _ _ _ _ _) as [s1 [objs|e|]]; simpl in *; [|done..].
  by rewrite save_net.
Qed.

(** [open_viewer] sends no request and does not sleep. *)
Lemma open_viewer_net gfuel w k s :
  net_calls (trace (open_viewer U env tmpdir fig gfuel w k s).1) = net_calls (trace s).
Proof.
  unfold open_viewer. cbv zeta.
  set (temp := (save_database U env fig gfuel (viewer_reply w k) _;; mret _) : M string).
  assert (∀ s, net_calls (trace (temp s).1) = net_calls (trace s)) as Htemp.
  { intros s0. subst temp. unfold mbind, M_bind, mret, M_ret.
    pose proof (save_database_net gfuel (viewer_reply w k)
                  (path_join tmpdir ("gluciferDB" +:+ db_id fig +:+ ".gldb")) s0) as Hs.
    by destruct (save_database _ _ _ _ _ _ _) as [s1 [f|e|]]. }
  set (first := match db_filename fig with
                | Some f => if String.eqb f "" then temp else mret f
                | None => temp
                end).
  assert (∀ s, net_calls (trace (first s).1) = net_calls (trace s)) as Hfirst.
  { intros s0. subst first. destruct (db_filename fig) as [f|]; [|apply Htemp].
    destruct (String.eqb f ""); [apply Htemp|done]. }
  unfold mbind at 1. unfold M_bind at 1. specialize (Hfirst s).
  destruct (first s) as [s1 [fname|e|]]; simpl in *; [|done..].
  unfold mbind, M_bind, gets, act, raise, mret, M_ret.
  destruct (_viewerProc s1 && poll w k); [done|].
  destruct (lavavu env && (rank env =? 0)%nat); [|done].
  destruct (popen w k) as [e|]; simpl; [by net_simpl|].
  destruct (ipython w); by net_simpl.
Qed.

End net.

(** ** Default names *)

Section naming_claims.
Context (U : ObjTable) (env : Env).

(** One call keeps positions, names already present, and exports them. *)
Lemma generate_keeps_name fuel r figname objects props s s' out idx obj n :
  _objects s !! idx = Some obj → get_props s obj !! "name" = Some n →
  _generate U env fuel r figname objects props s = (s', out) → out ≠ Diverge →
  _objects s' !! idx = Some obj ∧ get_props s' obj !! "name" = Some n ∧
  ∃ w, writes (trace s') = writes (trace s) ++ w ∧
       ∀ fig e, (fig, WExport e) ∈ w →
                ∃ d, ex_objects e !! idx = Some d ∧ d !! "name" = Some n.
Proof.
  intros Hidx Hname Hg Hout.
  destruct (generate_frame _ _ _ _ _ _ _ _ _ _ Hg Hout)
    as (run & s1 & Hm & Ho & Hp & Hv & Hprops & Hmode).
  destruct (merge_loop_inv _ _ _ _ _ _ _ Hm) as (_ & _ & _ & _ & _ & _ & _ & Hpr1 & _ & _).
  assert (_objects s' !! idx = Some obj) as Hidx'.
  { rewrite Ho. destruct (add_objects_prefix (_objects s) run) as [ext ->].
    by apply lookup_app_l_Some. }
  assert (get_props s' obj !! "name" = Some n) as Hname'.
  { rewrite Hprops. cbv zeta.
    assert (get_props (name_loop U 0 (_objects s1) s1) obj !! "name" = Some n) as Hn2.
    { apply name_loop_keeps_name. by rewrite (get_props_ext s s1). }
    destruct (_viewonly s); [done|]. case_bool_decide; [|done].
    by rewrite lookup_insert_ne. }
  split_and!; [done..|].
  destruct (_viewonly s).
  - destruct out as [objs'|e|]; [|exists []; rewrite app_nil_r; split;
                                   [done|by intros ? ? ?%elem_of_nil]|done].
    destruct Hmode as (_ & states & steps & state & objs & state' & _ & _ & _ & _ & _ & _ & Hw).
    eexists. split; [exact Hw|]. by intros fig e [=]%list_elem_of_singleton.
  - destruct Hmode as (_ & Hw). eexists. split; [exact Hw|].
    intros fig e [= _ ->]%list_elem_of_singleton. exists (get_props s' obj).
    split; [|done]. simpl. by rewrite list_lookup_fmap, Hidx'.
Qed.

(** C3.  After [_generate], every object of the figure is in the store's
    list, and an object that had no ["name"] carries the default one:
    ["ColourBar_<o>"] when its ["colourbar"] property is truthy, otherwise
    the type tag (the type without its three-letter prefix) followed by
    ["_<o>"], where [o] is its position in the store's list
    [self._objects]. *)
Theorem default_names_use_store_index fuel r figname objects props s s' out :
  NoDup (_objects s) →
  _generate U env fuel r figname objects props s = (s', out) → out ≠ Diverge →
  (∀ obj, obj ∈ objects → obj ∈ _objects s') ∧
  ∀ o obj,
    _objects s' !! o = Some obj → get_props s obj !! "name" = None →
    get_props s' obj !! "name" =
      Some (VStr (if from_option truthy false (get_props s obj !! "colourbar")
                  then "ColourBar_" +:+ str o
                  else str_drop 3 (dr_type U obj) +:+ "_" +:+ str o)).
Proof.
  intros Hnd Hg Hout.
  destruct (generate_frame _ _ _ _ _ _ _ _ _ _ Hg Hout)
    as (run & s1 & Hm & Ho & Hp & Hv & Hprops & _).
  destruct (merge_loop_inv _ _ _ _ _ _ _ Hm)
    as (run' & Hrun & Hpend & _ & _ & _ & _ & Hpr1 & _ & Ho1).
  simpl in Hrun. subst run'. split.
  - intros obj Hobj. rewrite Ho. apply elem_of_add_objects. right. by apply Hpend.
  - intros o obj Ho' Hname.
    assert (get_props s1 obj = get_props s obj) as Hs1 by by apply get_props_ext.
    assert (get_props (name_loop U 0 (_objects s1) s1) obj !! "name" =
            Some (VStr (default_name U o obj (get_props s obj)))) as Hn2.
    { rewrite (name_loop_assigns U 0 (_objects s1) s1 o obj).
      - by rewrite Hs1, lookup_insert_eq.
      - rewrite Ho1. by apply add_objects_NoDup.
      - congruence.
      - by rewrite Hs1. }
    rewrite Hprops. cbv zeta. destruct (_viewonly s); [done|].
    case_bool_decide; [|done]. by rewrite lookup_insert_ne.
Qed.

(** C4.  Once an object of the store has a name, no sequence of further
    [_generate] calls changes it or the object's position, and every state
    written from live objects after that records the name at that
    position. *)
Theorem default_name_stable fuel calls s s' idx obj n :
  _objects s !! idx = Some obj → get_props s obj !! "name" = Some n →
  run_calls U env fuel calls s = Some s' →
  _objects s' !! idx = Some obj ∧ get_props s' obj !! "name" = Some n ∧
  ∃ w, writes (trace s') = writes (trace s) ++ w ∧
       ∀ fig e, (fig, WExport e) ∈ w →
                ∃ d, ex_objects e !! idx = Some d ∧ d !! "name" = Some n.
Proof.
  revert s. induction calls as [|c calls IH]; intros s Hidx Hname; simpl.
  - intros [= <-]. split_and!; [done..|]. exists []. rewrite app_nil_r.
    split; [done|]. by intros ? ? ?%elem_of_nil.
  - destruct (_generate U env fuel (c_reply c) (c_figname c) (c_objects c) (c_props c) s)
      as [s1 out] eqn:Hg.
    assert (out ≠ Diverge → run_calls U env fuel calls s1 = Some s' →
            _objects s' !! idx = Some obj ∧ get_props s' obj !! "name" = Some n ∧
            ∃ w, writes (trace s') = writes (trace s) ++ w ∧
                 ∀ fig e, (fig, WExport e) ∈ w →
                          ∃ d, ex_objects e !! idx = Some d ∧ d !! "name" = Some n) as Hstep.
    { intros Hout Hrun.
      destruct (generate_keeps_name _ _ _ _ _ _ _ _ _ _ _ Hidx Hname Hg Hout)
        as (Hidx1 & Hname1 & w1 & Hw1 & Hex1).
      destruct (IH _ Hidx1 Hname1 Hrun) as (Hidx' & Hname' & w2 & Hw2 & Hex2).
      split_and!; [done..|]. exists (w1 ++ w2). split.
      - by rewrite Hw2, Hw1, app_assoc.
      - intros fig e [?|?]%elem_of_app; eauto. }
    destruct out; [by apply Hstep|by apply Hstep|done].
Qed.

End naming_claims.

(** ** Visibility and idempotence in live mode *)

Section live_claims.
Context (U : ObjTable) (env : Env).

(** With flat colour bars, the merged list holds the figure's objects and
    their colour bars. *)
Lemma merged_objects fuel objects s run s1 x :
  flat_colourbars U → merge_loop U fuel [] objects s = Some (run, s1) →
  x ∈ run ↔ x ∈ objects ∨ ∃ p, p ∈ objects ∧ _colourBar U p = Some x.
Proof.
  intros Hflat Hm.
  destruct (merge_loop_inv _ _ _ _ _ _ _ Hm)
    as (run' & Hrun & Hpend & Horig & Hclos & _).
  simpl in Hrun. subst run'. split.
  - intros Hx. destruct (Horig _ Hx) as [?|(p & Hp & Hpx)]; [by left|].
    right. exists p. split; [|done].
    destruct (Horig _ Hp) as [?|(q & _ & Hqp)]; [done|].
    rewrite (Hflat _ _ Hqp) in Hpx. done.
  - intros [?|(p & Hp & Hpx)]; [by apply Hpend|].
    eapply Hclos; [|done]. by apply Hpend.
Qed.

(** C5.  After a live [_generate], every object of the store has a boolean
    ["visible"] property.  It is true exactly when the object is in the
    figure's list as the loop left it (colour bars appended) or its
    [parent] is; and, colour bars being flat, exactly when the object is
    one of the objects passed for the figure or the colour bar of one. *)
Theorem live_visibility fuel r figname objects props s s' objects' :
  flat_colourbars U → store_inv s → _viewonly s = false →
  _generate U env fuel r figname objects props s = (s', Return objects') →
  ∀ obj, obj ∈ _objects s' →
    ∃ b, get_props s' obj !! "visible" = Some (VBool b) ∧
         (b = true ↔ obj ∈ objects' ∨ ∃ p, parent s' !! obj = Some p ∧ p ∈ objects') ∧
         (b = true ↔ obj ∈ objects ∨ ∃ p, p ∈ objects ∧ _colourBar U p = Some obj).
Proof.
  intros Hflat [_ Hpar] Hlive Hg obj Hobj.
  destruct (generate_frame _ _ _ _ _ _ _ _ _ _ Hg ltac:(done))
    as (run & s1 & Hm & Ho & Hp & Hv & Hprops & Hmode).
  rewrite Hlive in Hprops, Hmode. destruct Hmode as [[-> _]%live_returned _].
  destruct (merge_loop_inv _ _ _ _ _ _ _ Hm)
    as (run' & Hrun & _ & _ & _ & Hnone & Hkeep & _).
  simpl in Hrun. subst run'.
  exists (is_visible run s1 obj). split_and!.
  - rewrite Hprops. cbv zeta. rewrite bool_decide_eq_true_2 by done.
    apply lookup_insert_eq.
  - rewrite is_visible_spec. by rewrite Hp.
  - rewrite is_visible_spec, <- (merged_objects _ _ _ _ _ _ Hflat Hm). split; [|by left].
    intros [?|(p & Hpo & _)]; [done|].
    destruct (decide (obj ∈ run)) as [?|Hr]; [done|].
    rewrite (Hkeep _ Hr), Hpar in Hpo; [done|].
    rewrite Ho in Hobj. apply elem_of_add_objects in Hobj as [?|?]; done.
Qed.

(** C7.  In live mode a second [_generate] for the same figure, objects and
    properties writes the same state again and leaves the objects'
    properties, parents and the store's list as the first call left them.
    It returns as the first did, unless the viewer raises when it is opened
    for the geometry output, which is after the state was written. *)
Theorem live_generate_idempotent fuel r r' figname objects props s s1 objects1 :
  _viewonly s = false →
  _generate U env fuel r figname objects props s = (s1, Return objects1) →
  ∃ s2 e,
    _generate U env fuel r' figname objects props s1 =
      (s2, if lavavu env && (rank env =? 0)%nat
           then match r' with
                | Figures _ _ => Return objects1
                | ViewerError msg => Raise (RuntimeError msg)
                end
           else Return objects1) ∧
    writes (trace s1) = writes (trace s) ++ [(figname, WExport e)] ∧
    writes (trace s2) = writes (trace s1) ++ [(figname, WExport e)] ∧
    _objects s2 = _objects s1 ∧ parent s2 = parent s1 ∧
    ∀ x, get_props s2 x = get_props s1 x.
Proof.
  intros Hlive Hg.
  destruct (generate_frame _ _ _ _ _ _ _ _ _ _ Hg ltac:(done))
    as (run & m1 & Hm & Ho & Hp & Hv & Hprops & Hmode).
  rewrite Hlive in Hprops, Hmode. destruct Hmode as [[-> Hlo]%live_returned Hw].
  destruct (merge_loop_inv _ _ _ _ _ _ _ Hm)
    as (run' & Hrun & Hpend & _ & _ & Hnone & Hkeep & Hpr & _ & Hom).
  simpl in Hrun. subst run'.
  destruct (merge_loop_list _ _ _ _ _ _ _ s1 Hm) as [m2 Hm2].
  destruct (_generate U env fuel r' figname objects props s1) as [s2 out] eqn:Hg2.
  assert (_viewonly s1 = false) as Hlive1 by congruence.
  destruct (generate_inv _ _ _ _ _ _ _ _ _ _ Hg2) as [(_ & _ & ?)|(run2 & m2' & Hm2' & Hs2)];
    [congruence|].
  rewrite Hm2 in Hm2'. injection Hm2' as <- <-. rewrite Hlive1 in Hs2.
  destruct Hs2 as [_ Hout2].
  assert (out ≠ Diverge) as Hnd.
  { rewrite Hout2. pose proof (live_outcome_total U env r' (_objects m2)).
    by destruct (live_outcome U env r' (_objects m2)) as [[]| |]. }
  destruct (generate_frame _ _ _ _ _ _ _ _ _ _ Hg2 Hnd)
    as (run2 & m2' & Hm2' & Ho2 & Hp2 & Hv2 & Hprops2 & Hmode2).
  rewrite Hm2 in Hm2'. injection Hm2' as <- <-.
  rewrite Hlive1 in Hprops2, Hmode2. destruct Hmode2 as [_ Hw2].
  destruct (merge_loop_inv _ _ _ _ _ _ _ Hm2)
    as (run' & Hrun & _ & _ & _ & Hnone2 & Hkeep2 & Hpr2 & _ & Hom2).
  simpl in Hrun. subst run'.
  (* every visited object is in the store already *)
  assert (∀ x, x ∈ run → x ∈ _objects s1) as Hknown.
  { intros x Hx. rewrite Ho. apply elem_of_add_objects. by right. }
  assert (_objects s2 = _objects s1) as Hobjs.
  { rewrite Ho2. by apply add_objects_known. }
  assert (_objects m2 = _objects s1) as Hobjs_m.
  { rewrite Hom2. by apply add_objects_known. }
  assert (parent s2 = parent s1) as Hpar.
  { rewrite Hp2. apply map_eq. intros x. destruct (decide (x ∈ run)) as [Hx|Hx].
    - rewrite (Hnone2 _ Hx), Hp. symmetry. by apply Hnone.
    - by apply Hkeep2. }
  (* every object of the store was named by the first call *)
  assert (∀ x, x ∈ _objects s1 → is_Some (get_props s1 x !! "name")) as Hnamed.
  { intros x Hx. rewrite Hprops. cbv zeta. rewrite bool_decide_eq_true_2 by done.
    rewrite lookup_insert_ne by done. apply name_loop_all_named. congruence. }
  assert (name_loop U 0 (_objects m2) m2 = m2) as Hn2.
  { apply name_loop_id. intros x Hx. rewrite (get_props_ext s1 m2) by done.
    apply Hnamed. congruence. }
  assert (∀ x, get_props s2 x = get_props s1 x) as Hsame.
  { intros x. rewrite Hprops2. cbv zeta. rewrite Hn2, (get_props_ext s1 m2) by done.
    rewrite Hobjs. case_bool_decide as Hx; [|done].
    apply insert_id. rewrite Hprops. cbv zeta. rewrite bool_decide_eq_true_2 by done.
    rewrite lookup_insert_eq. do 2 f_equal.
    apply is_visible_ext. congruence. }
  exists s2, (_get_state (_objects s1) props s1). split_and!; try done.
  - f_equal. rewrite Hout2, Hobjs_m. revert Hlo. unfold live_outcome.
    destruct (lavavu env && (rank env =? 0)%nat); [|done].
    destruct r as [states steps|msg]; [|done].
    destruct (head (omap (render_raises U) (_objects s1))); [done|].
    by destruct r'.
  - rewrite Hw2, Hobjs. do 3 f_equal. unfold _get_state.
    assert (map (get_props s2) (_objects s1) = map (get_props s1) (_objects s1)) as ->; [|done].
    by apply map_ext.
Qed.

End live_claims.

(** ** Reconciliation in view-only mode *)

(** The last merged dictionary that has a key decides it. *)
Lemma lookup_foldl_update_snoc (d o : dict) (ms : list dict) (k : string) :
  foldl update d (ms ++ [o]) !! k =
    match o !! k with Some v => Some v | None => foldl update d ms !! k end.
Proof. rewrite foldl_app. simpl. apply lookup_update. Qed.

Lemma lookup_foldl_update_untouched (d : dict) (ms : list dict) (k : string) :
  Forall (λ o, o !! k = None) ms → foldl update d ms !! k = d !! k.
Proof.
  intros H. revert d. induction H as [|o ms Ho _ IH]; intros d; simpl; [done|].
  by rewrite IH, lookup_update, Ho.
Qed.

Section view_claims.
Context (U : ObjTable) (env : Env).

(** What a view-only call that returned has done. *)
Lemma generate_view_returned fuel r figname objects props s s' objects' :
  _viewonly s = true →
  _generate U env fuel r figname objects props s = (s', Return objects') →
  ∃ states steps state objs state',
    r = Figures states steps ∧ lavavu env = true ∧ rank env = 0%nat ∧
    locate_state figname states = Return state ∧
    update_objects objects' (fs_objects state) s' = Return objs ∧
    update_properties props state objs = Return state' ∧
    writes (trace s') = writes (trace s) ++ [(figname, WState state')] ∧
    (objects = [] ↔ objects' = []) ∧
    Forall (λ o, is_Some (o !! "name")) (map (get_props s') objects').
Proof.
  intros Hview Hg.
  destruct (generate_frame _ _ _ _ _ _ _ _ _ _ Hg ltac:(done))
    as (run & s1 & Hm & Ho & Hp & Hv & Hprops & Hmode).
  rewrite Hview in Hprops, Hmode.
  destruct Hmode as (-> & states & steps & state & objs & state' & ? & ? & ? & ? & ? & ? & ?).
  exists states, steps, state, objs, state'. split_and!; try done.
  - destruct (merge_loop_inv _ _ _ _ _ _ _ Hm) as (run' & Hrun & Hpend & _).
    simpl in Hrun. subst run'. split.
    + intros ->. destruct fuel; simpl in Hm; by injection Hm as <- _.
    + intros ->. destruct objects as [|x ?]; [done|].
      specialize (Hpend x ltac:(left)). by apply elem_of_nil in Hpend.
  - apply Forall_fmap, Forall_forall. intros x Hx. simpl. rewrite Hprops. cbv zeta.
    apply name_loop_all_named.
    destruct (merge_loop_inv _ _ _ _ _ _ _ Hm) as (run' & Hrun & _ & _ & _ & _ & _ & _ & _ & ->).
    simpl in Hrun. subst run'. apply elem_of_add_objects. by right.
Qed.

(** C1.  A view-only [_generate] that returns has written the located state
    with its descriptors reconciled.  Without local objects every
    descriptor is shown.  With local objects, a descriptor whose name
    equals no local object's name is only hidden; one whose name equals
    some local objects' names has those objects' properties merged in, in
    order, a merged value replacing the one under the same key, and is
    shown. *)
Theorem viewonly_reconciliation fuel r figname objects props s s' objects' :
  _viewonly s = true →
  _generate U env fuel r figname objects props s = (s', Return objects') →
  ∃ states steps state state',
    r = Figures states steps ∧ locate_state figname states = Return state ∧
    writes (trace s') = writes (trace s) ++ [(figname, WState state')] ∧
    (objects = [] →
       fs_objects state' =
         map (λ dbobj, <["visible" := VBool true]> dbobj) (fs_objects state)) ∧
    (objects ≠ [] →
       Forall2 (λ dbobj res,
                  ∃ n, dbobj !! "name" = Some n ∧
                    let ms := filter (λ o, override_matches n o = true)
                                     (map (get_props s') objects') in
                    (ms = [] → res = <["visible" := VBool false]> dbobj) ∧
                    (ms ≠ [] → res = <["visible" := VBool true]> (foldl update dbobj ms)))
               (fs_objects state) (fs_objects state')).
Proof.
  intros Hview Hg.
  destruct (generate_view_returned _ _ _ _ _ _ _ _ Hview Hg)
    as (states & steps & state & objs & state' & -> & _ & _ & Hloc & Hobjs & Hst & Hw & Hnil & Hnamed).
  exists states, steps, state, state'. split_and!; try done.
  - intros Hno. apply Hnil in Hno. subst objects'. simpl in Hobjs. injection Hobjs as <-.
    unfold update_properties in Hst. destruct (fs_views state); [done|]. by injection Hst as <-.
  - intros Hsome. assert (objects' ≠ []) as Hne by (by rewrite <- Hnil).
    assert (fs_objects state' = objs) as ->.
    { unfold update_properties in Hst. destruct (fs_views state); [done|]. by injection Hst as <-. }
    unfold update_objects in Hobjs. destruct objects' as [|x xs] eqn:Hxs; [done|].
    rewrite <- Hxs in *.
    apply reconcile_objects_spec in Hobjs; [|by rewrite Hxs|done].
    eapply Forall2_impl; [exact Hobjs|].
    intros dbobj res [[n Hn] ->]. exists n. split; [done|].
    unfold reconciled. rewrite Hn. cbv zeta.
    destruct (filter _ _) as [|m ms]; split; done.
Qed.

(** C2.  On a non-empty document the search picks the first state whose
    ["figure"] is the requested name and otherwise the last state; it
    raises nothing.  A view-only [_generate] that returns has written the
    state picked, updated; and on rank 0 it does return when that state has
    a view and, if local objects are passed, named descriptors. *)
Theorem missing_figure_falls_back_to_last fuel states steps figname objects props s s' out :
  states ≠ [] → _viewonly s = true →
  _generate U env fuel (Figures states steps) figname objects props s = (s', out) →
  ∃ state,
    locate_state figname states = Return state ∧
    ((∃ st, st ∈ states ∧ figure st = figname) →
       figure state = figname ∧
       ∃ pre post, states = pre ++ state :: post ∧
                   Forall (λ st, figure st ≠ figname) pre) ∧
    ((∀ st, st ∈ states → figure st ≠ figname) → last states = Some state) ∧
    (∀ objs', out = Return objs' →
       ∃ objs state',
         update_properties props state objs = Return state' ∧
         writes (trace s') = writes (trace s) ++ [(figname, WState state')]) ∧
    (lavavu env = true → rank env = 0%nat → out ≠ Diverge → fs_views state ≠ [] →
     objects = [] ∨ Forall (λ dbobj, is_Some (dbobj !! "name")) (fs_objects state) →
     ∃ objs', out = Return objs').
Proof.
  intros Hne Hview Hg.
  assert (∃ state, locate_state figname states = Return state ∧
            ((∃ st, st ∈ states ∧ figure st = figname) →
               figure state = figname ∧
               ∃ pre post, states = pre ++ state :: post ∧
                           Forall (λ st, figure st ≠ figname) pre) ∧
            ((∀ st, st ∈ states → figure st ≠ figname) → last states = Some state))
    as (state & Hloc & Hfirst & Hlast).
  { unfold locate_state. destruct (find_state figname states) as [state|] eqn:Hf.
    - exists state. split; [done|]. apply find_state_Some in Hf as (pre & post & -> & Hfig & Hpre).
      split.
      + intros _. split; [done|]. by exists pre, post.
      + intros Hnone. destruct (Hnone state); [|done].
        apply elem_of_app. right. left.
    - apply find_state_None in Hf. destruct (last states) as [state|] eqn:Hl.
      + exists state. split; [done|]. split; [|done].
        intros (st & Hst & Hfig). rewrite Forall_forall in Hf. by destruct (Hf st Hst).
      + apply last_None in Hl. done. }
  exists state. split_and!; try done.
  - intros objs' ->.
    destruct (generate_view_returned _ _ _ _ _ _ _ _ Hview Hg)
      as (states' & steps' & state1 & objs & state' & [= <- <-] & _ & _ & Hloc' & _ & Hst & Hw & _).
    rewrite Hloc in Hloc'. injection Hloc' as <-. by exists objs, state'.
  - intros Hlava Hrank Hout Hviews Hdb.
    apply generate_inv in Hg as [(-> & _)|(objs' & s1 & Hm & Hg)]; [done|].
    rewrite Hview in Hg. destruct Hg as (o & Hg & ->).
    destruct (merge_loop_inv _ _ _ _ _ _ _ Hm) as (run & Hrun & _ & _ & _ & _ & _ & _ & _ & Ho1).
    simpl in Hrun. subst run.
    destruct (generate_view_total env states steps figname objs' props
                (name_loop U 0 (_objects s1) s1) state) as [s'' Hret]; try done.
    + destruct Hdb as [->|?]; [left|by right].
      destruct fuel; simpl in Hm; by injection Hm as <- _.
    + apply Forall_fmap, Forall_forall. intros x Hx. simpl.
      apply name_loop_all_named. rewrite Ho1. apply elem_of_add_objects. by right.
    + rewrite Hret in Hg. injection Hg as _ <-. by exists objs'.
Qed.

(** C6.  [update] is last-write-wins per key, and a view-only [_generate]
    that returns has merged [props] in this way into the properties of the
    located state and into its first view. *)
Theorem merge_last_write_wins fuel r figname objects props s s' objects' :
  _viewonly s = true →
  _generate U env fuel r figname objects props s = (s', Return objects') →
  update {[ "a" := VInt 1; "b" := VInt 2 ]} {[ "b" := VInt 3; "c" := VInt 4 ]}
    = ({[ "a" := VInt 1; "b" := VInt 3; "c" := VInt 4 ]} : dict) ∧
  (∀ (d new : dict) (k : string),
     update d new !! k = match new !! k with Some v => Some v | None => d !! k end) ∧
  ∃ states steps state state' view views,
    r = Figures states steps ∧ locate_state figname states = Return state ∧
    writes (trace s') = writes (trace s) ++ [(figname, WState state')] ∧
    fs_views state = view :: views ∧
    fs_properties state' = update (fs_properties state) props ∧
    fs_views state' = update view props :: views.
Proof.
  intros Hview Hg. split_and!.
  - apply map_eq. intros k. rewrite lookup_update.
    destruct (decide (k = "b")) as [->|?]; [done|].
    destruct (decide (k = "c")) as [->|?]; [done|].
    destruct (decide (k = "a")) as [->|?]; [done|].
    rewrite !lookup_insert_ne by done. by rewrite !lookup_singleton_ne by done.
  - apply lookup_update.
  - destruct (generate_view_returned _ _ _ _ _ _ _ _ Hview Hg)
      as (states & steps & state & objs & state' & -> & _ & _ & Hloc & _ & Hst & Hw & _).
    unfold update_properties in Hst. destruct (fs_views state) as [|view views] eqn:Hviews; [done|].
    injection Hst as <-. eexists states, steps, state, _, view, views. by split_and!.
Qed.

End view_claims.

(** ** Retry of viewer commands, and the other ranks *)

Section figure_claims.
Context (U : ObjTable) (env : Env).
Context (tmpdir : string) (quote : string → string) (fig : Figure).

(** C8, as the code has it.  On the rank that talks to the viewer, when
    the first request fails: the failure is printed, the retry announced,
    one [sleep(1)] made and [send_command] called once more, with [retry]
    off.  That call runs [open_viewer] again, before its [try]: what
    [open_viewer] raises reaches the caller and no second request is sent.
    When it returns, one more request is sent; if that one fails too the
    failure is printed and dropped, if it answers nothing more is printed,
    and the call returns.  Whatever fuel beyond two is given, there is no
    second sleep and no third request. *)
Theorem send_command_retries_once fuel gfuel w cmd s s1 :
  lavavu env = true → rank env = 0%nat →
  open_viewer U env tmpdir fig gfuel w 0 s = (s1, Return tt) →
  urlopen w 0%nat = false →
  let url := "http://localhost:9999/command=" +:+ quote cmd in
  let failed := EvPrint ("Send command '" +:+ cmd +:+ "' failed, no response") in
  let s2 := emit (EvSleep 1)
              (emit (EvPrint "... retrying in 1s ...")
                 (emit failed (emit (EvUrlOpen url) s1))) in
  ∃ s3 o s' out,
    open_viewer U env tmpdir fig gfuel w 1 s2 = (s3, o) ∧
    send_command U env tmpdir quote fig (S (S fuel)) gfuel w 0 cmd true s = (s', out) ∧
    match o with
    | Return _ =>
        out = Return tt ∧
        s' = (if urlopen w 1%nat then emit (EvUrlOpen url) s3
              else emit (EvPrint "... failed, skipping ...")
                     (emit failed (emit (EvUrlOpen url) s3))) ∧
        net_calls (trace s') = net_calls (trace s) ++ [inl url; inr 1; inl url]
    | Raise e =>
        out = Raise e ∧ s' = s3 ∧
        net_calls (trace s') = net_calls (trace s) ++ [inl url; inr 1]
    | Diverge =>
        out = Diverge ∧ s' = s3 ∧
        net_calls (trace s') = net_calls (trace s) ++ [inl url; inr 1]
    end.
Proof.
  intros Hlava Hrank Hopen Hfail. cbv zeta.
  set (url := "http://localhost:9999/command=" +:+ quote cmd).
  set (failed := EvPrint ("Send command '" +:+ cmd +:+ "' failed, no response")).
  set (s2 := emit (EvSleep 1)
               (emit (EvPrint "... retrying in 1s ...")
                  (emit failed (emit (EvUrlOpen url) s1)))).
  assert (net_calls (trace s2) = net_calls (trace s) ++ [inl url; inr 1]) as Hn2.
  { pose proof (open_viewer_net U env tmpdir fig gfuel w 0 s) as Hn. rewrite Hopen in Hn.
    simpl in Hn. subst s2. rewrite !net_calls_emit, Hn. simpl.
    by rewrite !app_nil_r, <- app_assoc. }
  destruct (open_viewer U env tmpdir fig gfuel w 1 s2) as [s3 o] eqn:Hopen2.
  assert (net_calls (trace s3) = net_calls (trace s) ++ [inl url; inr 1]) as Hn3.
  { rewrite <- Hn2. pose proof (open_viewer_net U env tmpdir fig gfuel w 1 s2) as Hn.
    by rewrite Hopen2 in Hn. }
  exists s3, o.
  assert (send_command U env tmpdir quote fig (S (S fuel)) gfuel w 0 cmd true s =
          match o with
          | Return _ =>
              (if urlopen w 1%nat then emit (EvUrlOpen url) s3
               else emit (EvPrint "... failed, skipping ...")
                      (emit failed (emit (EvUrlOpen url) s3)), Return tt)
          | Raise e => (s3, Raise e)
          | Diverge => (s3, Diverge)
          end) as ->.
  { simpl. rewrite Hlava, Hrank. simpl.
    unfold mbind at 1. unfold M_bind at 1. rewrite Hopen.
    unfold mbind, M_bind, mret, M_ret, act. rewrite Hfail.
    fold url. fold failed. fold s2. rewrite Hopen2.
    destruct o as [[]|e|]; [|done..]. by destruct (urlopen w 1%nat). }
  destruct o as [[]|e|].
  - eexists _, _. split_and!; try done.
    destruct (urlopen w 1%nat); rewrite !net_calls_emit, Hn3; simpl;
      by rewrite ?app_nil_r, <- app_assoc.
  - by eexists _, _.
  - by eexists _, _.
Qed.

Lemma send_command_off_root fuel gfuel w attempt cmd retry s :
  rank env ≠ 0%nat →
  send_command U env tmpdir quote fig (S fuel) gfuel w attempt cmd retry s = (s, Return tt).
Proof.
  intros Hrank. simpl. apply Nat.eqb_neq in Hrank. rewrite Hrank.
  by rewrite andb_false_r.
Qed.

End figure_claims.

Section rank_claims.
Context (U : ObjTable) (env : Env).

Lemma save_off_root filename s :
  rank env ≠ 0%nat → save env filename s = (s, Return None).
Proof. intros Hrank%Nat.eqb_neq. unfold save. by rewrite Hrank. Qed.

Lemma read_state_off_root r s :
  rank env ≠ 0%nat → _read_state env r s = (s, Return None).
Proof.
  intros Hrank. unfold _read_state.
  assert ((0 <? rank env)%nat = true) as -> by (apply Nat.ltb_lt; lia).
  by rewrite orb_true_r.
Qed.

(** Off the root rank the view-only branch raises before it calls out. *)
Lemma generate_view_off_root r figname objects props s :
  rank env ≠ 0%nat →
  generate_view env r figname objects props s =
    (s, Raise (TypeError "'NoneType' object is not iterable")).
Proof.
  intros Hrank. unfold generate_view, mbind, M_bind.
  by rewrite read_state_off_root.
Qed.

(** C9, as the code has it.  On a rank other than 0, [Store.save],
    [Store._read_state] and [Figure.send_command] change nothing, call
    nothing and return [None]; a view-only [_generate] makes no outside
    call either, but it does merge the figure's objects into the store's
    list and names them. *)
Theorem other_ranks_make_no_outside_call tmpdir quote fig fuel gfuel w attempt cmd retry
    filename r figname objects props s s' out :
  rank env ≠ 0%nat → _viewonly s = true →
  _generate U env fuel r figname objects props s = (s', out) →
  save env filename s = (s, Return None) ∧
  _read_state env r s = (s, Return None) ∧
  send_command U env tmpdir quote fig (S fuel) gfuel w attempt cmd retry s = (s, Return tt) ∧
  trace s' = trace s ∧
  (out ≠ Diverge →
   ∀ obj, obj ∈ objects → obj ∈ _objects s' ∧ is_Some (get_props s' obj !! "name")).
Proof.
  intros Hrank Hview Hg. split_and!.
  - by apply save_off_root.
  - by apply read_state_off_root.
  - by apply send_command_off_root.
  - apply generate_inv in Hg as [(_ & -> & _)|(objs' & s1 & Hm & Hg)]; [done|].
    rewrite Hview in Hg. destruct Hg as (o & Hg & _).
    rewrite generate_view_off_root in Hg by done. injection Hg as <- _.
    destruct (merge_loop_inv _ _ _ _ _ _ _ Hm) as (_ & _ & _ & _ & _ & _ & _ & _ & Hout & _).
    destruct (name_loop_frame U 0 (_objects s1) s1) as (_ & _ & Hout').
    destruct Hout as (_ & _ & _ & _ & _ & _ & <-). by destruct Hout' as (_ & _ & _ & _ & _ & _ & ->).
  - intros Hout obj Hobj.
    destruct (generate_frame _ _ _ _ _ _ _ _ _ _ Hg Hout)
      as (run & s1 & Hm & Ho & _ & _ & Hprops & _).
    destruct (merge_loop_inv _ _ _ _ _ _ _ Hm)
      as (run' & Hrun & Hpend & _ & _ & _ & _ & _ & _ & Ho1).
    simpl in Hrun. subst run'.
    assert (obj ∈ foldl add_object (_objects s) run) as Hin.
    { apply elem_of_add_objects. right. by apply Hpend. }
    split; [by rewrite Ho|].
    rewrite Hprops, Hview. cbv zeta. apply name_loop_all_named. by rewrite Ho1.
Qed.

End rank_claims.

(** C9 as written fails: on rank 1 a view-only [_generate] raises
    [TypeError], since [_read_state] gave [None], and by then the store's
    list has grown. *)
Lemma viewonly_generate_raises_off_root :
  ∃ s',
    _generate ex_table other_env 4 (Figures ex_document []) "Figure_1" [7%nat] ∅ view_store =
      (s', Raise (TypeError "'NoneType' object is not iterable")) ∧
    _objects view_store = [] ∧ _objects s' = [7%nat].
Proof. eexists. split_and!; [reflexivity|reflexivity|vm_compute; reflexivity]. Qed.

(** C8 as written fails: the first request is not answered, the viewer
    process is gone by the retry and cannot be started again; what [Popen]
    raises leaves [send_command], after one request and one sleep. *)
Lemma send_command_retry_raises :
  urlopen dead_outside 0%nat = false ∧
  ∃ s',
    send_command ex_table root_env "/tmp" (λ cmd, cmd) ex_figure 2 4 dead_outside 0
                 "quit" true live_store =
      (s', Raise (OSError "[Errno 2] No such file or directory")) ∧
    net_calls (trace s') = [inl "http://localhost:9999/command=quit"; inr 1].
Proof. split; [reflexivity|]. eexists. split; [vm_compute; reflexivity|reflexivity]. Qed.

(** ** The properties on the worked examples *)

Lemma ex_table_flat : flat_colourbars ex_table.
Proof.
  intros p c. unfold ex_table. simpl.
  destruct (p =? 1)%nat; [|discriminate]. by intros [= <-].
Qed.

Lemma live_store_inv : store_inv live_store.
Proof. split; simpl; [constructor|by intros ? ?%elem_of_nil]. Qed.

Lemma live_result1_inv : store_inv live_result1.1.
Proof.
  apply (store_inv_generate ex_table root_env 4 (Figures [] []) "Figure_1"
           [1%nat; 2%nat] ∅ live_store _ live_result1.2 live_store_inv).
  unfold live_result1. by destruct (_generate _ _ _ _ _ _ _ _).
Qed.

(** The scenario of the specification: [A] ends hidden, [B] shown and red. *)
Lemma viewonly_reconciliation_witness :
  ∃ states steps state state',
    Figures ex_document [] = Figures states steps ∧
    locate_state "Figure_1" states = Return state ∧
    writes (trace view_result.1) =
      writes (trace view_store) ++ [("Figure_1", WState state')] ∧
    ([7%nat] = [] →
       fs_objects state' =
         map (λ dbobj, <["visible" := VBool true]> dbobj) (fs_objects state)) ∧
    ([7%nat] ≠ [] →
       Forall2 (λ dbobj res,
                  ∃ n, dbobj !! "name" = Some n ∧
                    let ms := filter (λ o, override_matches n o = true)
                                     (map (get_props view_result.1) [7%nat]) in
                    (ms = [] → res = <["visible" := VBool false]> dbobj) ∧
                    (ms ≠ [] → res = <["visible" := VBool true]> (foldl update dbobj ms)))
               (fs_objects state) (fs_objects state')).
Proof.
  apply (viewonly_reconciliation ex_table root_env 4 (Figures ex_document []) "Figure_1"
           [7%nat] {[ "title" := VStr "new" ]} view_store view_result.1 [7%nat]).
  - reflexivity.
  - vm_compute. reflexivity.
Defined.

Lemma missing_figure_falls_back_to_last_witness :
  ∃ state,
    locate_state "Missing" ex_document = Return state ∧
    ((∃ st, st ∈ ex_document ∧ figure st = "Missing") →
       figure state = "Missing" ∧
       ∃ pre post, ex_document = pre ++ state :: post ∧
                   Forall (λ st, figure st ≠ "Missing") pre) ∧
    ((∀ st, st ∈ ex_document → figure st ≠ "Missing") → last ex_document = Some state) ∧
    (∀ objs', view_missing.2 = Return objs' →
       ∃ objs state',
         update_properties {[ "title" := VStr "new" ]} state objs = Return state' ∧
         writes (trace view_missing.1) =
           writes (trace view_store) ++ [("Missing", WState state')]) ∧
    (lavavu root_env = true → rank root_env = 0%nat → view_missing.2 ≠ Diverge →
     fs_views state ≠ [] →
     ([] : list oid) = [] ∨ Forall (λ dbobj, is_Some (dbobj !! "name")) (fs_objects state) →
     ∃ objs', view_missing.2 = Return objs').
Proof.
  apply (missing_figure_falls_back_to_last ex_table root_env 4 ex_document [] "Missing" []
           {[ "title" := VStr "new" ]} view_store view_missing.1 view_missing.2).
  - discriminate.
  - reflexivity.
  - vm_compute. reflexivity.
Defined.

Lemma merge_last_write_wins_witness :
  update {[ "a" := VInt 1; "b" := VInt 2 ]} {[ "b" := VInt 3; "c" := VInt 4 ]}
    = ({[ "a" := VInt 1; "b" := VInt 3; "c" := VInt 4 ]} : dict) ∧
  (∀ (d new : dict) (k : string),
     update d new !! k = match new !! k with Some v => Some v | None => d !! k end) ∧
  ∃ states steps state state' view views,
    Figures ex_document [] = Figures states steps ∧
    locate_state "Figure_1" states = Return state ∧
    writes (trace view_result.1) =
      writes (trace view_store) ++ [("Figure_1", WState state')] ∧
    fs_views state = view :: views ∧
    fs_properties state' = update (fs_properties state) {[ "title" := VStr "new" ]} ∧
    fs_views state' = update view {[ "title" := VStr "new" ]} :: views.
Proof.
  apply (merge_last_write_wins ex_table root_env 4 (Figures ex_document []) "Figure_1"
           [7%nat] {[ "title" := VStr "new" ]} view_store view_result.1 [7%nat]).
  - reflexivity.
  - vm_compute. reflexivity.
Defined.

(** Object [3] is first in its figure and fourth in the store: its name
    ends in [3]. *)
Lemma default_names_use_store_index_witness :
  _objects live_result2.1 = [1%nat; 2%nat; 5%nat; 3%nat] ∧
  (∀ obj, obj ∈ [3%nat] → obj ∈ _objects live_result2.1) ∧
  ∀ o obj,
    _objects live_result2.1 !! o = Some obj →
    get_props live_result1.1 obj !! "name" = None →
    get_props live_result2.1 obj !! "name" =
      Some (VStr (if from_option truthy false (get_props live_result1.1 obj !! "colourbar")
                  then "ColourBar_" +:+ str o
                  else str_drop 3 (dr_type ex_table obj) +:+ "_" +:+ str o)).
Proof.
  split; [vm_compute; reflexivity|].
  apply (default_names_use_store_index ex_table root_env 4 (Figures [] []) "Figure_2"
           [3%nat] ∅ live_result1.1 live_result2.1 live_result2.2).
  - apply live_result1_inv.
  - vm_compute. reflexivity.
  - vm_compute. discriminate.
Defined.

Lemma default_name_stable_witness :
  _objects live_run !! 0%nat = Some 1%nat ∧
  get_props live_run 1%nat !! "name" = Some (VStr "ScalarField_0") ∧
  ∃ w, writes (trace live_run) = writes (trace live_result1.1) ++ w ∧
       ∀ fig e, (fig, WExport e) ∈ w →
                ∃ d, ex_objects e !! 0%nat = Some d ∧ d !! "name" = Some (VStr "ScalarField_0").
Proof.
  apply (default_name_stable ex_table root_env 4 ex_calls live_result1.1 live_run 0 1%nat
           (VStr "ScalarField_0")).
  - vm_compute. reflexivity.
  - vm_compute. reflexivity.
  - vm_compute. reflexivity.
Defined.

(** After the second figure only object [3] is shown. *)
Lemma live_visibility_witness :
  _objects live_result2.1 = [1%nat; 2%nat; 5%nat; 3%nat] ∧
  ∀ obj, obj ∈ _objects live_result2.1 →
    ∃ b, get_props live_result2.1 obj !! "visible" = Some (VBool b) ∧
         (b = true ↔ obj ∈ [3%nat] ∨
                     ∃ p, parent live_result2.1 !! obj = Some p ∧ p ∈ [3%nat]) ∧
         (b = true ↔ obj ∈ [3%nat] ∨ ∃ p, p ∈ [3%nat] ∧ _colourBar ex_table p = Some obj).
Proof.
  split; [vm_compute; reflexivity|].
  apply (live_visibility ex_table root_env 4 (Figures [] []) "Figure_2" [3%nat] ∅
           live_result1.1 live_result2.1 [3%nat]).
  - apply ex_table_flat.
  - apply live_result1_inv.
  - vm_compute. reflexivity.
  - vm_compute. reflexivity.
Defined.

Lemma live_generate_idempotent_witness :
  ∃ s2 e,
    _generate ex_table root_env 4 (Figures [] []) "Figure_1" [1%nat; 2%nat] ∅ live_result1.1 =
      (s2, Return [1%nat; 2%nat; 5%nat]) ∧
    writes (trace live_result1.1) = writes (trace live_store) ++ [("Figure_1", WExport e)] ∧
    writes (trace s2) = writes (trace live_result1.1) ++ [("Figure_1", WExport e)] ∧
    _objects s2 = _objects live_result1.1 ∧ parent s2 = parent live_result1.1 ∧
    ∀ x, get_props s2 x = get_props live_result1.1 x.
Proof.
  apply (live_generate_idempotent ex_table root_env 4 (Figures [] []) (Figures [] [])
           "Figure_1" [1%nat; 2%nat] ∅ live_store live_result1.1 [1%nat; 2%nat; 5%nat]).
  - reflexivity.
  - vm_compute. reflexivity.
Defined.

Lemma send_command_retries_once_witness :
  ∃ s3 o s' out,
    open_viewer ex_table root_env "/tmp" ex_figure 4 ex_outside 1
      (emit (EvSleep 1)
         (emit (EvPrint "... retrying in 1s ...")
            (emit (EvPrint "Send command 'quit' failed, no response")
               (emit (EvUrlOpen "http://localhost:9999/command=quit")
                  (open_viewer ex_table root_env "/tmp" ex_figure 4 ex_outside 0
                     live_store).1)))) = (s3, o) ∧
    send_command ex_table root_env "/tmp" (λ cmd, cmd) ex_figure 2 4 ex_outside 0 "quit"
                 true live_store = (s', out) ∧
    match o with
    | Return _ =>
        out = Return tt ∧
        s' = (if urlopen ex_outside 1%nat
              then emit (EvUrlOpen "http://localhost:9999/command=quit") s3
              else emit (EvPrint "... failed, skipping ...")
                     (emit (EvPrint "Send command 'quit' failed, no response")
                        (emit (EvUrlOpen "http://localhost:9999/command=quit") s3))) ∧
        net_calls (trace s') =
          net_calls (trace live_store) ++
          [inl "http://localhost:9999/command=quit"; inr 1;
           inl "http://localhost:9999/command=quit"]
    | Raise e =>
        out = Raise e ∧ s' = s3 ∧
        net_calls (trace s') =
          net_calls (trace live_store) ++ [inl "http://localhost:9999/command=quit"; inr 1]
    | Diverge =>
        out = Diverge ∧ s' = s3 ∧
        net_calls (trace s') =
          net_calls (trace live_store) ++ [inl "http://localhost:9999/command=quit"; inr 1]
    end.
Proof.
  apply (send_command_retries_once ex_table root_env "/tmp" (λ cmd, cmd) ex_figure 0 4
           ex_outside "quit" live_store).
  - reflexivity.
  - reflexivity.
  - vm_compute. reflexivity.
  - reflexivity.
Defined.

Lemma other_ranks_make_no_outside_call_witness :
  save other_env "vis" view_store = (view_store, Return None) ∧
  _read_state other_env (Figures ex_document []) view_store = (view_store, Return None) ∧
  send_command ex_table other_env "/tmp" (λ cmd, cmd) ex_figure 5 4 ex_outside 0 "quit" true
               view_store = (view_store, Return tt) ∧
  trace (_generate ex_table other_env 4 (Figures ex_document []) "Figure_1" [7%nat] ∅
           view_store).1 = trace view_store ∧
  ((_generate ex_table other_env 4 (Figures ex_document []) "Figure_1" [7%nat] ∅
      view_store).2 ≠ Diverge →
   ∀ obj, obj ∈ [7%nat] →
     obj ∈ _objects (_generate ex_table other_env 4 (Figures ex_document []) "Figure_1"
                       [7%nat] ∅ view_store).1 ∧
     is_Some (get_props (_generate ex_table other_env 4 (Figures ex_document []) "Figure_1"
                           [7%nat] ∅ view_store).1 obj !! "name")).
Proof.
  apply (other_ranks_make_no_outside_call ex_table other_env "/tmp" (λ cmd, cmd) ex_figure
           4 4 ex_outside 0 "quit" true "vis" (Figures ex_document []) "Figure_1" [7%nat] ∅
           view_store).
  - discriminate.
  - reflexivity.
  - vm_compute. reflexivity.
Defined.

(** ** File names *)

Lemma length_app_string (a b : string) :
  String.length (a +:+ b) = (String.length a + String.length b)%nat.
Proof. induction a as [|c a IH]; simpl; [done|]. by rewrite <- IH. Qed.

Lemma lower_app (a b : string) : lower (a +:+ b) = lower a +:+ lower b.
Proof. induction a as [|c a IH]; simpl; [done|]. by rewrite IH. Qed.

Lemma length_lower (a : string) : String.length (lower a) = String.length a.
Proof. induction a as [|c a IH]; simpl; [done|]. by rewrite IH. Qed.

Lemma str_drop_app (a b : string) : str_drop (String.length a) (a +:+ b) = b.
Proof. induction a as [|c a IH]; simpl; [by destruct b|done]. Qed.

Lemma str_take_app (a b : string) : str_take (String.length a) (a +:+ b) = a.
Proof. induction a as [|c a IH]; simpl; [by destruct b|]. by rewrite IH. Qed.

Lemma endswith_app (a b : string) : endswith (a +:+ b) b = true.
Proof.
  unfold endswith. rewrite length_app_string.
  replace (String.length a + String.length b - String.length b)%nat
    with (String.length a) by lia.
  rewrite str_drop_app, String.eqb_refl, andb_true_r. apply Nat.leb_le. lia.
Qed.

Lemma str_chop_app (a b : string) : str_chop (String.length b) (a +:+ b) = a.
Proof.
  unfold str_chop. rewrite length_app_string.
  replace (String.length a + String.length b - String.length b)%nat
    with (String.length a) by lia.
  apply str_take_app.
Qed.

Lemma has_db_extension_gldb (f : string) : has_db_extension (f +:+ ".gldb") = true.
Proof.
  unfold has_db_extension. rewrite lower_app.
  change (lower ".gldb") with ".gldb". by rewrite endswith_app.
Qed.

(** X1.  On rank 0 [Store.save] backs the database up under the given name,
    with [.gldb] appended unless the name already ends in [.gldb] or [.db]
    in any letter case, and returns that name; the returned name always
    carries such an ending, so saving under it again keeps it. *)
Theorem save_appends_extension env filename s :
  rank env = 0%nat →
  let f' := if has_db_extension filename then filename else filename +:+ ".gldb" in
  save env filename s = (emit (EvBackupDbFile f') s, Return (Some f')) ∧
  has_db_extension f' = true ∧
  save env f' s = (emit (EvBackupDbFile f') s, Return (Some f')).
Proof.
  intros Hrank. cbv zeta.
  assert (∀ f, save env f s =
               let g := if has_db_extension f then f else f +:+ ".gldb" in
               (emit (EvBackupDbFile g) s, Return (Some g))) as Hsave.
  { intros f. unfold save, has_db_extension. rewrite Hrank. simpl.
    by destruct (endswith (lower f) ".gldb"), (endswith (lower f) ".db"). }
  assert (has_db_extension
            (if has_db_extension filename then filename else filename +:+ ".gldb") = true)
    as Hext.
  { destruct (has_db_extension filename) eqn:E; [done|]. apply has_db_extension_gldb. }
  split_and!; [apply Hsave|done|]. rewrite Hsave. cbv zeta. by rewrite Hext.
Qed.

(** X2.  A store made with a name that carries no database ending keeps the
    name with [.gldb] appended, and hands the name as given to the native
    database; made with the ending written out it hands over the same base
    name. *)
Theorem store_filename_round_trip f split view isfile :
  f ≠ "" → has_db_extension f = false →
  sc_filename (Store_config (Some f) split view isfile) = Some (f +:+ ".gldb") ∧
  stg_filename (sc_filename (Store_config (Some f) split view isfile)) = Some f ∧
  sc_filename (Store_config (Some (f +:+ ".gldb")) split view isfile) = Some (f +:+ ".gldb").
Proof.
  intros Hne Hext.
  assert (String.eqb f "" = false) as Hf by by apply String.eqb_neq.
  assert (String.eqb (f +:+ ".gldb") "" = false) as Hfg.
  { apply String.eqb_neq. by destruct f. }
  pose proof Hext as Hext'. unfold has_db_extension in Hext'.
  apply orb_false_iff in Hext' as [Hg Hd].
  assert (endswith (lower (f +:+ ".gldb")) ".gldb" = true) as Hend.
  { rewrite lower_app. apply endswith_app. }
  split_and!.
  - unfold Store_config. simpl. by rewrite Hf, Hg, Hd.
  - unfold Store_config. simpl. rewrite Hf, Hg, Hd. simpl.
    rewrite Hfg, Hend.
    replace (str_chop 5 (f +:+ ".gldb")) with f by (symmetry; apply (str_chop_app f ".gldb")).
    by rewrite Hd.
  - unfold Store_config. simpl. by rewrite Hfg, Hend.
Qed.

Lemma add_to_stg_dict_lookup c component :
  _add_to_stg_dict c component !! "singleFile" = Some (VBool (negb (sc_split c))) ∧
  _add_to_stg_dict c component !! "viewonly" = Some (VBool (sc_viewonly c)) ∧
  _add_to_stg_dict c component !! "splitTransactions" = Some (VBool true).
Proof.
  unfold _add_to_stg_dict. rewrite !lookup_update. split_and!.
  - rewrite !lookup_insert_ne by done. by rewrite lookup_insert_eq.
  - rewrite !lookup_insert_ne by done. by rewrite lookup_singleton_eq.
  - rewrite lookup_insert_ne by done. by rewrite lookup_insert_eq.
Qed.

(** X3.  A store made without a file name ([None] or the empty string) is
    never split over time steps and never view-only, whatever [split] and
    [view] were passed: the native database is told [singleFile] true and
    [viewonly] false. *)
Theorem unnamed_store_is_single_file filename split view isfile component :
  filename = None ∨ filename = Some "" →
  _add_to_stg_dict (Store_config filename split view isfile) component !! "singleFile"
    = Some (VBool true) ∧
  _add_to_stg_dict (Store_config filename split view isfile) component !! "viewonly"
    = Some (VBool false) ∧
  _viewonly (Store_init filename view isfile) = false.
Proof.
  intros Hname.
  destruct (add_to_stg_dict_lookup (Store_config filename split view isfile) component)
    as (-> & -> & _).
  destruct Hname as [->| ->]; destruct view; by split_and!.
Qed.

(** ** The store across calls *)

Section store_extras.
Context (U : ObjTable) (env : Env).

Lemma merge_loop_more_fuel fuel fuel' visited pending s res :
  merge_loop U fuel visited pending s = Some res → (fuel ≤ fuel')%nat →
  merge_loop U fuel' visited pending s = Some res.
Proof.
  revert fuel' visited pending s. induction fuel as [|fuel IH]; intros fuel' visited pending s.
  - destruct pending; simpl; [|done]. intros [= <-] _. by destruct fuel'.
  - destruct pending as [|obj rest]; simpl.
    + intros [= <-] _. by destruct fuel'.
    + intros Hm Hle. destruct fuel' as [|fuel']; [lia|]. simpl. apply IH; [done|lia].
Qed.

(** With flat colour bars the final list is the given one followed by the
    colour bars of its objects. *)
Lemma merge_loop_flat fuel visited pend extras s objs s' :
  flat_colourbars U → Forall (λ x, _colourBar U x = None) extras →
  merge_loop U fuel visited (pend ++ extras) s = Some (objs, s') →
  objs = visited ++ pend ++ extras ++ omap (_colourBar U) pend.
Proof.
  intros Hflat. revert visited pend extras s.
  induction fuel as [|fuel IH]; intros visited pend extras s Hex.
  - destruct pend, extras; simpl; try done. intros [= <- _]. by rewrite app_nil_r.
  - destruct pend as [|x pend]; simpl.
    + destruct extras as [|e extras]; simpl.
      * intros [= <- _]. by rewrite app_nil_r.
      * apply Forall_cons in Hex as [He Hex]. rewrite He. simpl. rewrite app_nil_r.
        intros Hm. apply (IH _ [] extras) in Hm; [|done]. simpl in Hm.
        rewrite Hm, app_nil_r, <- app_assoc. done.
    + rewrite <- app_assoc. intros Hm.
      apply (IH _ pend (extras ++ option_list (_colourBar U x))) in Hm.
      * rewrite Hm, <- !app_assoc. simpl. f_equal. f_equal. f_equal.
        by destruct (_colourBar U x).
      * apply Forall_app. split; [done|].
        destruct (_colourBar U x) as [cb|] eqn:Hcb; simpl; [|done].
        constructor; [by eapply Hflat|done].
Qed.

(** A chain of colour bars that never ends keeps the work list from
    emptying. *)
Lemma merge_loop_cyclic (C : oid → Prop) fuel visited pending s :
  (∀ x, C x → ∃ y, _colourBar U x = Some y ∧ C y) →
  (∃ x, x ∈ pending ∧ C x) →
  merge_loop U fuel visited pending s = None.
Proof.
  intros Hc. revert visited pending s.
  induction fuel as [|fuel IH]; intros visited pending s (x & Hx & HC).
  - destruct pending; [by apply elem_of_nil in Hx|done].
  - destruct pending as [|obj rest]; [by apply elem_of_nil in Hx|]. simpl.
    apply IH. apply elem_of_cons in Hx as [->|Hx].
    + destruct (Hc _ HC) as (y & Hy & HCy). exists y. split; [|done].
      apply elem_of_app. right. rewrite Hy. simpl. left.
    + exists x. split; [|done]. apply elem_of_app. by left.
Qed.

(** X4.  When colour bars carry no colour bar of their own, [_generate]
    ends: fuel for two visits per object suffices, and more fuel changes
    nothing. *)
Theorem generate_terminates fuel fuel' r figname objects props s :
  flat_colourbars U → (2 * length objects ≤ fuel)%nat → (fuel ≤ fuel')%nat →
  (_generate U env fuel r figname objects props s).2 ≠ Diverge ∧
  _generate U env fuel' r figname objects props s =
    _generate U env fuel r figname objects props s.
Proof.
  intros Hflat Hfuel Hle. split; [by apply generate_total|].
  destruct (merge_loop_total U fuel [] objects s Hflat) as [res Hm].
  { pose proof (merge_cost_le U objects). lia. }
  unfold _generate. by rewrite Hm, (merge_loop_more_fuel _ _ _ _ _ _ Hm Hle).
Qed.

(** X5.  When some object of the figure starts a chain of colour bars that
    never ends (a colour bar that is, in the end, its own colour bar), the
    first loop of [_generate] keeps appending and the call never returns. *)
Theorem generate_diverges_on_cyclic_colourbars (C : oid → Prop) fuel r figname objects
    props s :
  (∀ x, C x → ∃ y, _colourBar U x = Some y ∧ C y) →
  (∃ x, x ∈ objects ∧ C x) →
  _generate U env fuel r figname objects props s = (s, Diverge).
Proof.
  intros Hc Hx. unfold _generate. by rewrite (merge_loop_cyclic C).
Qed.

(** X6.  A call that returns leaves the caller's list as it was given,
    followed by the colour bars of its objects in the same order (colour
    bars carrying none of their own). *)
Theorem generate_appends_colourbars fuel r figname objects props s s' objects' :
  flat_colourbars U →
  _generate U env fuel r figname objects props s = (s', Return objects') →
  objects' = objects ++ omap (_colourBar U) objects.
Proof.
  intros Hflat Hg.
  destruct (generate_frame _ _ _ _ _ _ _ _ _ _ Hg ltac:(done))
    as (run & s1 & Hm & _ & _ & _ & _ & Hmode).
  assert (objects' = run) as ->.
  { destruct (_viewonly s); [by destruct Hmode|].
    by destruct Hmode as [[-> _]%live_returned _]. }
  rewrite <- (app_nil_r objects) in Hm.
  apply (merge_loop_flat _ _ _ _ _ _ _ Hflat) in Hm; [|done]. by rewrite Hm.
Qed.

(** The invariant and the mode over a sequence of calls. *)
Lemma run_calls_inv fuel calls s s' :
  store_inv s → run_calls U env fuel calls s = Some s' →
  store_inv s' ∧ _viewonly s' = _viewonly s ∧ ∃ ext, _objects s' = _objects s ++ ext.
Proof.
  revert s. induction calls as [|c calls IH]; intros s Hinv; simpl.
  - intros [= <-]. split_and!; [done..|]. exists []. by rewrite app_nil_r.
  - destruct (_generate U env fuel (c_reply c) (c_figname c) (c_objects c) (c_props c) s)
      as [s1 out] eqn:Hg.
    assert (out ≠ Diverge → run_calls U env fuel calls s1 = Some s' →
            store_inv s' ∧ _viewonly s' = _viewonly s ∧ ∃ ext, _objects s' = _objects s ++ ext)
      as Hstep.
    { intros Hout Hrun.
      destruct (IH s1) as (Hinv' & Hv & ext & Hext); [by eapply store_inv_generate|done|].
      destruct (generate_frame _ _ _ _ _ _ _ _ _ _ Hg Hout) as (run & m & _ & Ho & _ & Hv1 & _).
      destruct (add_objects_prefix (_objects s) run) as [ext1 Hext1].
      split_and!; [done|congruence|]. exists (ext1 ++ ext).
      by rewrite Hext, Ho, Hext1, app_assoc. }
    destruct out; [by apply Hstep|by apply Hstep|done].
Qed.

(** X7.  Over any sequence of [_generate] calls on a store made by
    [Store.__init__], the store's list never holds an object twice, only
    grows at its end, and the mode chosen at construction stays. *)
Theorem store_list_grows_without_repeats fuel calls filename view isfile s' :
  run_calls U env fuel calls (Store_init filename view isfile) = Some s' →
  NoDup (_objects s') ∧
  _viewonly s' = _viewonly (Store_init filename view isfile) ∧
  ∀ calls' s'', run_calls U env fuel calls' s' = Some s'' →
                NoDup (_objects s'') ∧ ∃ ext, _objects s'' = _objects s' ++ ext.
Proof.
  intros Hrun.
  destruct (run_calls_inv _ _ _ _ (store_inv_init filename view isfile) Hrun)
    as (Hinv & Hv & _).
  split_and!; [by destruct Hinv|done|].
  intros calls' s'' Hrun'.
  destruct (run_calls_inv _ _ _ _ Hinv Hrun') as ([Hnd _] & _ & Hext). done.
Qed.

(** X8.  In live mode, on a store as the calls leave it, the [parent]
    written in the first loop is gone again when visibility is decided: an
    object of the store ends visible exactly when it is in the figure's list
    as the first loop left it. *)
Theorem live_visibility_ignores_parent fuel r figname objects props s s' objects' obj :
  store_inv s → _viewonly s = false →
  _generate U env fuel r figname objects props s = (s', Return objects') →
  obj ∈ _objects s' →
  parent s' !! obj = None ∧
  get_props s' obj !! "visible" = Some (VBool (bool_decide (obj ∈ objects'))).
Proof.
  intros Hinv Hlive Hg Hobj.
  pose proof (store_inv_generate _ _ _ _ _ _ _ _ _ _ Hinv Hg) as [_ Hpar'].
  destruct (generate_frame _ _ _ _ _ _ _ _ _ _ Hg ltac:(done))
    as (run & s1 & Hm & Ho & Hp & Hv & Hprops & Hmode).
  rewrite Hlive in Hprops, Hmode. destruct Hmode as [[-> _]%live_returned _].
  split; [by apply Hpar'|].
  rewrite Hprops. cbv zeta. rewrite bool_decide_eq_true_2 by done.
  rewrite lookup_insert_eq. do 2 f_equal. unfold is_visible.
  rewrite <- Hp, (Hpar' _ Hobj). apply orb_false_r.
Qed.

End store_extras.

(** ** What a call writes *)

Lemma clear_register_empty s : register (clear_register s) = [].
Proof.
  unfold clear_register.
  assert (∀ n s, register (foldl (λ s i, emit (EvRemoveByIndex i)
                                          (set_register (take i (register s)) s))
                                 s (rev (seq 0 n))) =
                 match n with O => register s | S _ => [] end) as H.
  { intros n. induction n as [|n IH]; intros t; [done|].
    rewrite seq_S, rev_app_distr. simpl. rewrite IH. destruct n; [|done].
    simpl. by rewrite take_0. }
  rewrite H. by destruct (register s).
Qed.

Section export_extras.
Context (U : ObjTable) (env : Env).

Lemma write_objects_register objects l s :
  register (foldl (write_object U objects) s l) = register s ++ l.
Proof.
  revert s. induction l as [|obj l IH]; intros s; simpl; [by rewrite app_nil_r|].
  rewrite IH. unfold write_object. destruct (colourMap U obj); simpl;
    by rewrite <- app_assoc.
Qed.

Lemma render_objects_register l s : register (render_objects U l s).1 = register s.
Proof.
  revert s. induction l as [|obj l IH]; intros s; simpl; [done|].
  unfold mbind, M_bind, act. simpl.
  destruct (render_raises U obj) as [e|]; simpl; [done|]. by rewrite IH.
Qed.

Lemma render_live_register r s : register (render_live U env r s).1 = register s.
Proof.
  unfold render_live. destruct (lavavu env && (rank env =? 0)%nat); [|done].
  unfold mbind, M_bind, gets. destruct r as [states steps|msg]; simpl; [|done].
  pose proof (render_objects_register (_objects (lvrun s)) (lvrun s)) as Hr.
  destruct (render_objects U (_objects (lvrun s)) (lvrun s)) as [s2 [[]|e|]];
    simpl in *; rewrite Hr; unfold lvrun; by destruct (viewer s).
Qed.

Lemma generate_live_register r figname objects props s :
  register (generate_live U env r figname objects props s).1 = _objects s.
Proof.
  rewrite generate_live_eq, render_live_register. unfold write_live. cbv zeta.
  set (s1 := emit (EvSetTimeStep (step s)) s).
  destruct (clear_register_frame s1) as (Ho2 & _).
  simpl. by rewrite write_objects_register, clear_register_empty, Ho2.
Qed.

(** X9.  After a live [_generate] the database's register of drawing
    objects holds exactly the store's objects, in the store's order,
    whatever it held before. *)
Theorem live_register_mirrors_store fuel r figname objects props s s' objects' :
  _viewonly s = false →
  _generate U env fuel r figname objects props s = (s', Return objects') →
  register s' = _objects s'.
Proof.
  intros Hlive Hg.
  destruct (generate_frame _ _ _ _ _ _ _ _ _ _ Hg ltac:(done)) as (run & s1 & Hm & Ho & _).
  apply generate_inv in Hg as [(? & _)|(objs' & s1' & Hm' & Hg)]; [done|].
  rewrite Hm in Hm'. injection Hm' as <- <-. rewrite Hlive in Hg. destruct Hg as [-> _].
  rewrite generate_live_register.
  destruct (name_loop_frame U 0 (_objects s1) s1) as (-> & _).
  destruct (generate_live_spec U env r figname run props (name_loop U 0 (_objects s1) s1))
    as (-> & _).
  by destruct (name_loop_frame U 0 (_objects s1) s1) as (-> & _).
Qed.

(** X10.  The state a live [_generate] writes holds the figure's properties,
    one view equal to them, and one descriptor per object of the store, in
    the store's order, hidden objects included; every descriptor has a name
    and a boolean [visible]. *)
Theorem live_export_shape fuel r figname objects props s s' objects' :
  _viewonly s = false →
  _generate U env fuel r figname objects props s = (s', Return objects') →
  ∃ e,
    writes (trace s') = writes (trace s) ++ [(figname, WExport e)] ∧
    ex_properties e = props ∧ ex_views e = [props] ∧
    ex_objects e = map (get_props s') (_objects s') ∧
    Forall (λ d, is_Some (d !! "name") ∧ ∃ b, d !! "visible" = Some (VBool b))
           (ex_objects e).
Proof.
  intros Hlive Hg.
  destruct (generate_frame _ _ _ _ _ _ _ _ _ _ Hg ltac:(done))
    as (run & s1 & Hm & Ho & Hp & Hv & Hprops & Hmode).
  rewrite Hlive in Hprops, Hmode. destruct Hmode as [_ Hw].
  destruct (merge_loop_inv _ _ _ _ _ _ _ Hm)
    as (run' & Hrun & _ & _ & _ & _ & _ & _ & _ & Ho1).
  simpl in Hrun. subst run'.
  eexists. split; [exact Hw|]. split_and!; try done.
  simpl. apply Forall_fmap, Forall_forall. intros x Hx. simpl.
  rewrite Hprops. cbv zeta. rewrite bool_decide_eq_true_2 by done. split.
  - rewrite lookup_insert_ne by done. apply name_loop_all_named. congruence.
  - eexists. apply lookup_insert_eq.
Qed.

(** X11.  A call of [_generate] writes at most one state, under the
    figure's name: one when it returns, none when it does not end.  When it
    raises, a view-only call has written nothing; a live call has written
    its state, for there only the geometry output raises, after the write
    and on the viewer's rank alone. *)
Theorem generate_writes_at_most_once fuel r figname objects props s s' out :
  _generate U env fuel r figname objects props s = (s', out) →
  match out with
  | Return _ => ∃ w, writes (trace s') = writes (trace s) ++ [(figname, w)]
  | Raise e =>
      if _viewonly s then writes (trace s') = writes (trace s)
      else lavavu env && (rank env =? 0)%nat = true ∧
           ∃ ex, writes (trace s') = writes (trace s) ++ [(figname, WExport ex)]
  | Diverge => writes (trace s') = writes (trace s)
  end.
Proof.
  intros Hg. destruct out as [objs'|e|].
  - destruct (generate_frame _ _ _ _ _ _ _ _ _ _ Hg ltac:(done))
      as (run & s1 & _ & _ & _ & _ & _ & Hmode).
    destruct (_viewonly s).
    + destruct Hmode as (_ & ? & ? & ? & ? & ? & _ & _ & _ & _ & _ & _ & Hw). by eexists.
    + destruct Hmode as (_ & Hw). by eexists.
  - destruct (generate_frame _ _ _ _ _ _ _ _ _ _ Hg ltac:(done))
      as (run & s1 & _ & _ & _ & _ & _ & Hmode).
    destruct (_viewonly s); [done|]. destruct Hmode as [Hout Hw]. split; [|by eexists].
    revert Hout. unfold live_outcome. by destruct (lavavu env && (rank env =? 0)%nat).
  - apply generate_inv in Hg as [(_ & -> & _)|(objs' & s1 & _ & Hg)]; [done|].
    destruct (_viewonly s).
    + destruct Hg as (o & Hg & Ho). apply generate_view_spec in Hg as (_ & _ & _ & _ & Hg).
      by destruct o.
    + destruct Hg as (_ & Ho). pose proof (live_outcome_total U env r (_objects s1)).
      by destruct (live_outcome U env r (_objects s1)) as [[]| |].
Qed.

End export_extras.

(** ** How a view-only call ends *)

Lemma name_object_other_key U o obj s x k :
  k ≠ "name" → get_props (name_object U o obj s) x !! k = get_props s x !! k.
Proof.
  intros Hk. unfold name_object. destruct (get_props s obj !! "name") eqn:E; [done|].
  destruct (decide (x = obj)) as [->|Hne].
  - by rewrite get_props_set_props_eq, lookup_insert_ne.
  - by rewrite get_props_set_props_ne.
Qed.

Lemma name_loop_other_key U o objs s x k :
  k ≠ "name" → get_props (name_loop U o objs s) x !! k = get_props s x !! k.
Proof.
  intros Hk. revert o s. induction objs as [|obj objs IH]; intros o s; simpl; [done|].
  by rewrite IH, name_object_other_key.
Qed.

(** The first descriptor without a name stops the outer loop. *)
Lemma reconcile_objects_unnamed (overrides dbobjs : list dict) :
  overrides ≠ [] → Forall (λ o, is_Some (o !! "name")) overrides →
  forallb has_name dbobjs = false →
  reconcile_objects overrides dbobjs = Raise (KeyError "name").
Proof.
  intros Hne Hall. induction dbobjs as [|d dbobjs IH]; simpl; [done|].
  unfold has_name at 1. case_bool_decide as Hd; simpl.
  - intros Hrest. destruct Hd as [n Hn].
    rewrite (apply_overrides_spec n n); [|by rewrite lookup_insert_ne|apply py_eq_refl|done].
    by rewrite IH.
  - intros _. destruct overrides as [|o overrides]; [done|]. simpl.
    unfold match_override. rewrite lookup_insert_ne by done.
    destruct (d !! "name") eqn:E; [|done]. destruct Hd. by eexists.
Qed.

Lemma reconcile_objects_named (overrides dbobjs : list dict) :
  Forall (λ o, is_Some (o !! "name")) overrides →
  forallb has_name dbobjs = true →
  ∃ objs, reconcile_objects overrides dbobjs = Return objs.
Proof.
  intros Hall Hdb. apply reconcile_objects_total; [done|].
  apply Forall_forall. intros d Hd. rewrite forallb_forall in Hdb.
  specialize (Hdb d). unfold has_name in Hdb.
  eapply bool_decide_eq_true_1, Hdb. by apply list_elem_of_In.
Qed.

Section view_extras.
Context (U : ObjTable) (env : Env).

(** X12.  How a view-only [_generate] ends, in the order the code meets the
    cases: [TypeError] when [_read_state] gave [None] (no viewer module, a
    rank above 0, or an error of the viewer); [IndexError] on an empty
    document; [KeyError] for ["name"] when local objects were passed and
    some descriptor of the located state has no name; [IndexError] when that
    state has no view; otherwise it returns. *)
Theorem viewonly_outcome fuel r figname objects props s s' out :
  _viewonly s = true →
  _generate U env fuel r figname objects props s = (s', out) → out ≠ Diverge →
  ∃ objects',
    (objects' = [] ↔ objects = []) ∧
    out =
      if negb (lavavu env) || (0 <? rank env)%nat
      then Raise (TypeError "'NoneType' object is not iterable")
      else match r with
           | ViewerError _ => Raise (TypeError "'NoneType' object is not iterable")
           | Figures states _ =>
               match locate_state figname states with
               | Return state =>
                   if negb (bool_decide (objects = []))
                      && negb (forallb has_name (fs_objects state))
                   then Raise (KeyError "name")
                   else match fs_views state with
                        | [] => Raise (IndexError "list index out of range")
                        | _ :: _ => Return objects'
                        end
               | Raise e => Raise e
               | Diverge => Diverge
               end
           end.
Proof.
  intros Hview Hg Hout.
  apply generate_inv in Hg as [(-> & _)|(objs' & s1 & Hm & Hg)]; [done|].
  rewrite Hview in Hg. destruct Hg as (o & Hg & ->).
  destruct (merge_loop_inv _ _ _ _ _ _ _ Hm)
    as (run & Hrun & Hpend & _ & _ & _ & _ & _ & _ & Ho1).
  simpl in Hrun. subst run.
  assert (objs' = [] ↔ objects = []) as Hnil.
  { split.
    - intros ->. destruct objects as [|x ?]; [done|].
      specialize (Hpend x ltac:(left)). by apply elem_of_nil in Hpend.
    - intros ->. destruct fuel; simpl in Hm; by injection Hm as <- _. }
  exists objs'. split; [done|].
  set (s2 := name_loop U 0 (_objects s1) s1) in *.
  assert (Forall (λ o, is_Some (o !! "name")) (map (get_props s2) objs')) as Hnamed.
  { apply Forall_fmap, Forall_forall. intros x Hx. simpl.
    apply name_loop_all_named. rewrite Ho1. apply elem_of_add_objects. by right. }
  revert Hg. unfold generate_view.
  destruct (read_state_spec env r s2) as (s3 & Hr & _ & _ & Hpr & _).
  unfold mbind at 1. unfold M_bind at 1. rewrite Hr.
  destruct (negb (lavavu env) || (0 <? rank env)%nat); [by intros [= _ <-]|].
  destruct r as [states steps|msg]; [|by intros [= _ <-]].
  unfold mbind, M_bind, lift, act.
  destruct (locate_state figname states) as [state| |] eqn:Hloc; [|by intros [= _ <-]..].
  rewrite (update_objects_ext _ _ _ _ Hpr). unfold update_objects.
  destruct objs' as [|x xs] eqn:Hobjs'.
  - assert (objects = []) as -> by by apply Hnil. simpl.
    unfold update_properties. destruct (fs_views state); by intros [= _ <-].
  - assert (objects ≠ []) as Hne.
    { intros Ho. apply Hnil in Ho. done. }
    rewrite (bool_decide_eq_false_2 _ Hne). simpl negb. rewrite andb_true_l.
    destruct (forallb has_name (fs_objects state)) eqn:Hall; simpl negb.
    + destruct (reconcile_objects_named _ _ Hnamed Hall) as [objs ->].
      unfold update_properties. destruct (fs_views state); by intros [= _ <-].
    + rewrite reconcile_objects_unnamed; [by intros [= _ <-]|done..].
Qed.

(** X13.  A view-only [_generate] writes nothing into the local objects'
    properties but a missing name: no [visible] flag, no merged value. *)
Theorem viewonly_leaves_local_objects fuel r figname objects props s s' out x :
  _viewonly s = true →
  _generate U env fuel r figname objects props s = (s', out) →
  (∀ k, k ≠ "name" → get_props s' x !! k = get_props s x !! k) ∧
  (is_Some (get_props s x !! "name") → get_props s' x = get_props s x).
Proof.
  intros Hview Hg.
  assert (out = Diverge ∨ out ≠ Diverge) as [->|Hout] by (destruct out; by eauto).
  { apply generate_inv in Hg as [(_ & -> & _)|(objs' & s1 & _ & Hg)]; [done|].
    rewrite Hview in Hg. destruct Hg as (o & Hg & Ho).
    apply generate_view_spec in Hg as (_ & _ & _ & _ & Hg). by destruct o. }
  destruct (generate_frame _ _ _ _ _ _ _ _ _ _ Hg Hout)
    as (run & s1 & Hm & _ & _ & _ & Hprops & _).
  rewrite Hview in Hprops.
  destruct (merge_loop_inv _ _ _ _ _ _ _ Hm) as (_ & _ & _ & _ & _ & _ & _ & Hpr1 & _).
  split.
  - intros k Hk. rewrite Hprops. cbv zeta.
    by rewrite name_loop_other_key, (get_props_ext s s1).
  - intros Hn. rewrite Hprops. cbv zeta.
    rewrite name_loop_named; [by apply get_props_ext|]. by rewrite (get_props_ext s s1).
Qed.

End view_extras.

(** ** Names and counters *)

Lemma list_ascii_app (a b : string) :
  list_ascii_of_string (a +:+ b) = list_ascii_of_string a ++ list_ascii_of_string b.
Proof. induction a as [|c a IH]; simpl; [done|]. by rewrite IH. Qed.

Lemma list_ascii_inj (a b : string) :
  list_ascii_of_string a = list_ascii_of_string b → a = b.
Proof.
  intros H. rewrite <- (string_of_list_ascii_of_string a), <- (string_of_list_ascii_of_string b).
  by rewrite H.
Qed.

(** A separator that occurs in neither tail splits a list in one way. *)
Lemma split_at_last {A} (x : A) (l1 l2 r1 r2 : list A) :
  x ∉ r1 → x ∉ r2 → l1 ++ x :: r1 = l2 ++ x :: r2 → r1 = r2.
Proof.
  intros H1 H2. revert l2. induction l1 as [|a l1 IH]; intros [|b l2]; simpl.
  - by intros [= ->].
  - intros [= <- ->]. destruct H1. apply elem_of_app. right. left.
  - intros [= -> <-]. destruct H2. apply elem_of_app. right. left.
  - intros [= _ H]. by eapply IH.
Qed.

Lemma uint_digits (d : Decimal.uint) :
  "_"%char ∉ list_ascii_of_string (NilEmpty.string_of_uint d).
Proof.
  induction d; simpl; [by apply not_elem_of_nil|..];
    (apply not_elem_of_cons; split; [discriminate|done]).
Qed.

Lemma str_digits (n : nat) : "_"%char ∉ list_ascii_of_string (str n).
Proof.
  unfold str, NilZero.string_of_uint.
  destruct (Nat.to_uint n) eqn:E; try (rewrite <- E; apply uint_digits).
  simpl. apply not_elem_of_cons. split; [discriminate|apply not_elem_of_nil].
Qed.

Lemma to_uint_not_nil (n : nat) : Nat.to_uint n ≠ Decimal.Nil.
Proof.
  intros H. pose proof (DecimalNat.Unsigned.of_to n) as Hn. rewrite H in Hn.
  simpl in Hn. subst n. done.
Qed.

Lemma str_inj (i j : nat) : str i = str j → i = j.
Proof.
  intros H. apply DecimalNat.Unsigned.to_uint_inj.
  pose proof (NilZero.usu _ (to_uint_not_nil i)) as Hi.
  pose proof (NilZero.usu _ (to_uint_not_nil j)) as Hj.
  unfold str in H. rewrite H in Hi. congruence.
Qed.

(** Names built from different positions differ, whatever the tags. *)
Lemma indexed_name_inj (t1 t2 : string) (i j : nat) :
  t1 +:+ "_" +:+ str i = t2 +:+ "_" +:+ str j → i = j.
Proof.
  intros H. apply (f_equal list_ascii_of_string) in H.
  rewrite !list_ascii_app in H. simpl in H.
  apply split_at_last in H; [|apply str_digits..].
  by apply str_inj, list_ascii_inj.
Qed.

Section name_extras.
Context (U : ObjTable) (env : Env).

Lemma default_name_indexed o obj d : ∃ tag, default_name U o obj d = tag +:+ "_" +:+ str o.
Proof.
  unfold default_name. destruct (from_option truthy false (d !! "colourbar")).
  - by exists "ColourBar".
  - by eexists.
Qed.

(** An object without a name gets the default one for its position. *)
Lemma generate_names_new fuel r figname objects props s s' out o obj :
  NoDup (_objects s) →
  _generate U env fuel r figname objects props s = (s', out) → out ≠ Diverge →
  _objects s' !! o = Some obj → get_props s obj !! "name" = None →
  get_props s' obj !! "name" = Some (VStr (default_name U o obj (get_props s obj))).
Proof.
  intros Hnd Hg Hout Ho' Hname.
  destruct (generate_frame _ _ _ _ _ _ _ _ _ _ Hg Hout)
    as (run & s1 & Hm & Ho & Hp & Hv & Hprops & _).
  destruct (merge_loop_inv _ _ _ _ _ _ _ Hm)
    as (run' & Hrun & _ & _ & _ & _ & _ & Hpr1 & _ & Ho1).
  simpl in Hrun. subst run'.
  assert (get_props s1 obj = get_props s obj) as Hs1 by by apply get_props_ext.
  assert (get_props (name_loop U 0 (_objects s1) s1) obj !! "name" =
          Some (VStr (default_name U o obj (get_props s obj)))) as Hn2.
  { rewrite (name_loop_assigns U 0 (_objects s1) s1 o obj).
    - by rewrite Hs1, lookup_insert_eq.
    - rewrite Ho1. by apply add_objects_NoDup.
    - congruence.
    - by rewrite Hs1. }
  rewrite Hprops. cbv zeta. destruct (_viewonly s); [done|].
  case_bool_decide; [|done]. by rewrite lookup_insert_ne.
Qed.

Lemma names_by_index_generate fuel r figname objects props s s' out :
  names_by_index s →
  _generate U env fuel r figname objects props s = (s', out) → out ≠ Diverge →
  names_by_index s'.
Proof.
  intros (Hnd & Hin & Hnotin) Hg Hout.
  destruct (generate_frame _ _ _ _ _ _ _ _ _ _ Hg Hout)
    as (run & s1 & Hm & Ho & Hp & Hv & Hprops & _).
  destruct (merge_loop_inv _ _ _ _ _ _ _ Hm)
    as (run' & Hrun & _ & _ & _ & _ & _ & Hpr1 & _ & Ho1).
  simpl in Hrun. subst run'.
  destruct (add_objects_prefix (_objects s) run) as [ext Hext].
  assert (NoDup (_objects s')) as Hnd' by (rewrite Ho; by apply add_objects_NoDup).
  split_and!; [done| |].
  - intros i obj Hi. destruct (decide (i < length (_objects s))%nat) as [Hlt|Hge].
    + assert (_objects s !! i = Some obj) as Hi0.
      { rewrite Ho, Hext, lookup_app_l in Hi; done. }
      destruct (Hin _ _ Hi0) as [tag Htag]. exists tag.
      by destruct (generate_keeps_name U env _ _ _ _ _ _ _ _ _ _ _ Hi0 Htag Hg Hout) as (_ & ? & _).
    + assert (obj ∉ _objects s) as Hnew.
      { intros [j Hj]%list_elem_of_lookup.
        assert (_objects s' !! j = Some obj) as Hj'.
        { rewrite Ho, Hext. by apply lookup_app_l_Some. }
        pose proof (NoDup_lookup _ _ _ _ Hnd' Hi Hj') as ->.
        apply lookup_lt_Some in Hj. lia. }
      destruct (default_name_indexed i obj (get_props s obj)) as [tag Htag].
      exists tag. rewrite <- Htag.
      by apply (generate_names_new fuel r figname objects props _ _ out); [| | | |apply Hnotin].
  - intros obj Hobj.
    assert (obj ∉ _objects s) as Hnew.
    { intros Hx. apply Hobj. rewrite Ho, Hext. apply elem_of_app. by left. }
    rewrite Hprops. cbv zeta.
    assert (get_props (name_loop U 0 (_objects s1) s1) obj = get_props s obj) as ->.
    { rewrite name_loop_notin; [by apply get_props_ext|]. by rewrite Ho1, <- Ho. }
    destruct (_viewonly s); [by apply Hnotin|].
    rewrite bool_decide_eq_false_2 by done. by apply Hnotin.
Qed.

Lemma names_by_index_run fuel calls s s' :
  names_by_index s → run_calls U env fuel calls s = Some s' → names_by_index s'.
Proof.
  revert s. induction calls as [|c calls IH]; intros s Hinv; simpl; [by intros [= <-]|].
  destruct (_generate U env fuel (c_reply c) (c_figname c) (c_objects c) (c_props c) s)
    as [s1 out] eqn:Hg.
  destruct out; [|..|done]; apply IH; by eapply names_by_index_generate.
Qed.

(** X14.  In a store whose objects the user never named, after any sequence
    of [_generate] calls every object of the store has a name and no two
    objects of the store share one. *)
Theorem default_names_unique fuel calls s s' i j oi oj :
  _objects s = [] → (∀ obj, get_props s obj !! "name" = None) →
  run_calls U env fuel calls s = Some s' →
  _objects s' !! i = Some oi → _objects s' !! j = Some oj → i ≠ j →
  is_Some (get_props s' oi !! "name") ∧
  get_props s' oi !! "name" ≠ get_props s' oj !! "name".
Proof.
  intros Hempty Hunnamed Hrun Hi Hj Hne.
  assert (names_by_index s) as Hinv.
  { split_and!; [rewrite Hempty; constructor| |done].
    intros k obj. by rewrite Hempty. }
  destruct (names_by_index_run _ _ _ _ Hinv Hrun) as (_ & Hin & _).
  destruct (Hin _ _ Hi) as [ti Hti]. destruct (Hin _ _ Hj) as [tj Htj].
  rewrite Hti, Htj. split; [by eexists|].
  intros [= H]. by apply indexed_name_inj in H.
Qed.

(** X15.  [Store.empty] forgets the objects but not their names: an object
    passed again afterwards keeps the name built from its old position, and
    an unnamed object of the same kind that lands on that position is given
    the same name. *)
Theorem names_collide_after_empty fuel r figname props s s' out b c :
  b ≠ c → _colourBar U b = None → _colourBar U c = None →
  dr_type U c = dr_type U b →
  get_props s b !! "name" = Some (VStr (str_drop 3 (dr_type U b) +:+ "_" +:+ str 1)) →
  get_props s c !! "name" = None →
  from_option truthy false (get_props s c !! "colourbar") = false →
  _generate U env fuel r figname [b; c] props (empty s) = (s', out) → out ≠ Diverge →
  _objects s' = [b; c] ∧
  get_props s' c !! "name" = get_props s' b !! "name".
Proof.
  intros Hbc Hb Hc Htype Hnb Hnc Hcb Hg Hout.
  destruct (generate_frame _ _ _ _ _ _ _ _ _ _ Hg Hout)
    as (run & s1 & Hm & Ho & _ & _ & Hprops & _).
  assert (run = [b; c]) as ->.
  { destruct fuel as [|[|fuel]]; simpl in Hm; try done.
    rewrite Hb, Hc in Hm. simpl in Hm. by destruct fuel; simpl in Hm; injection Hm as <- _. }
  destruct (merge_loop_inv _ _ _ _ _ _ _ Hm)
    as (run' & Hrun & _ & _ & _ & _ & _ & Hpr1 & _ & Ho1).
  simpl in Hrun. subst run'.
  assert (_objects s' = [b; c]) as Ho'.
  { rewrite Ho. simpl. unfold add_object. simpl.
    rewrite bool_decide_eq_false_2; [done|].
    by intros ->%list_elem_of_singleton. }
  split; [done|].
  assert (get_props s' b !! "name" =
          Some (VStr (str_drop 3 (dr_type U b) +:+ "_" +:+ str 1))) as ->.
  { rewrite Hprops. cbv zeta.
    assert (get_props (name_loop U 0 (_objects s1) s1) b !! "name" =
            Some (VStr (str_drop 3 (dr_type U b) +:+ "_" +:+ str 1))) as Hn.
    { apply name_loop_keeps_name. by rewrite (get_props_ext (empty s) s1). }
    destruct (_viewonly (empty s)); [done|]. case_bool_decide; [|done].
    by rewrite lookup_insert_ne. }
  rewrite (generate_names_new fuel r figname [b; c] props (empty s) s' out 1 c);
    try done.
  - unfold default_name. change (get_props (empty s) c) with (get_props s c).
    by rewrite Hcb, Htype.
  - simpl. constructor.
  - by rewrite Ho'.
Qed.

End name_extras.

(** ** Figures, viewers and defaults *)

Lemma Figure_names_bounds requests _id names _id' :
  Figure_names requests _id = Return (names, _id') →
  (_id ≤ _id')%nat ∧
  ∀ i name kwargs,
    requests !! i = Some (name, kwargs) → truthy name = false → kwargs !! "name" = None →
    ∃ m, (_id ≤ m < _id')%nat ∧ names !! i = Some (VStr ("Figure_" +:+ str m)).
Proof.
  revert _id names _id'. induction requests as [|[name kwargs] rest IH]; intros c names c'; simpl.
  - intros [= <- <-]. split; [done|]. by intros i ? ?.
  - destruct (Figure_name name kwargs c) as [[n c1]| |] eqn:Hn; [|done..].
    destruct (Figure_names rest c1) as [[ns c2]| |] eqn:Hrest; [|done..].
    intros [= <- <-]. destruct (IH _ _ _ Hrest) as [Hle Hrec].
    assert (c ≤ c1)%nat as Hc.
    { unfold Figure_name in Hn. destruct (truthy name).
      - destruct name; by simplify_eq.
      - destruct (kwargs !! "name"); simplify_eq; lia. }
    split; [lia|]. intros [|i] name' kwargs' Hi Hfalsy Hkw; simpl in *.
    + injection Hi as <- <-. unfold Figure_name in Hn. rewrite Hfalsy, Hkw in Hn.
      injection Hn as <- <-. exists c. split; [lia|done].
    + destruct (Hrec _ _ _ Hi Hfalsy Hkw) as (m & Hm & Hnm). exists m. split; [lia|done].
Qed.

Lemma Figure_names_ordered requests _id names _id' i j ni kwi nj kwj :
  Figure_names requests _id = Return (names, _id') → (i < j)%nat →
  requests !! i = Some (ni, kwi) → truthy ni = false → kwi !! "name" = None →
  requests !! j = Some (nj, kwj) → truthy nj = false → kwj !! "name" = None →
  ∃ m m', (m < m')%nat ∧
          names !! i = Some (VStr ("Figure_" +:+ str m)) ∧
          names !! j = Some (VStr ("Figure_" +:+ str m')).
Proof.
  revert _id names _id' i j.
  induction requests as [|[name kwargs] rest IH]; intros c names c' i j; simpl; [done|].
  destruct (Figure_name name kwargs c) as [[n c1]| |] eqn:Hn; [|done..].
  destruct (Figure_names rest c1) as [[ns c2]| |] eqn:Hrest; [|done..].
  intros [= <- <-] Hij Hi Hfi Hki Hj Hfj Hkj.
  destruct j as [|j]; [lia|]. destruct i as [|i]; simpl in *.
  - injection Hi as <- <-. unfold Figure_name in Hn. rewrite Hfi, Hki in Hn.
    injection Hn as <- <-.
    destruct (Figure_names_bounds _ _ _ _ Hrest) as [_ Hrec].
    destruct (Hrec _ _ _ Hj Hfj Hkj) as (m' & Hm' & Hnm'). exists c, m'.
    split_and!; [lia|done..].
  - apply (IH _ _ _ i j Hrest); [lia|done..].
Qed.

(** X16.  Figures made without a name get ["Figure_<n>"] from a counter that
    only such figures advance: in any run of constructions no two of them
    share their name. *)
Theorem figure_default_names_distinct requests _id names _id' i j ni kwi nj kwj :
  Figure_names requests _id = Return (names, _id') → i ≠ j →
  requests !! i = Some (ni, kwi) → truthy ni = false → kwi !! "name" = None →
  requests !! j = Some (nj, kwj) → truthy nj = false → kwj !! "name" = None →
  is_Some (names !! i) ∧ names !! i ≠ names !! j.
Proof.
  intros Hrun Hne Hi Hfi Hki Hj Hfj Hkj.
  assert (∀ m m', m ≠ m' → VStr ("Figure_" +:+ str m) ≠ VStr ("Figure_" +:+ str m')) as Hinj.
  { intros m m' Hm H. apply Hm.
    assert ("Figure_" +:+ str m = "Figure_" +:+ str m') as H' by congruence.
    exact (indexed_name_inj "Figure" "Figure" m m' H'). }
  destruct (decide (i < j)%nat) as [Hlt|Hge].
  - destruct (Figure_names_ordered _ _ _ _ _ _ _ _ _ _ Hrun Hlt Hi Hfi Hki Hj Hfj Hkj)
      as (m & m' & Hm & -> & ->).
    split; [by eexists|]. intros H. apply (Hinj m m'); [lia|congruence].
  - assert (j < i)%nat as Hlt by lia.
    destruct (Figure_names_ordered _ _ _ _ _ _ _ _ _ _ Hrun Hlt Hj Hfj Hkj Hi Hfi Hki)
      as (m & m' & Hm & -> & ->).
    split; [by eexists|]. intros H. apply (Hinj m m'); [lia|congruence].
Qed.

(** One call, from any counter. *)
Lemma Viewer_next_spec keys _index :
  keys ≠ [] →
  let e := if (length keys <=? _index)%nat then 0%nat else _index in
  (e < length keys)%nat ∧
  ∃ key, keys !! e = Some key ∧ Viewer_next keys _index = Return (key, S e).
Proof.
  intros Hne. cbv zeta. unfold Viewer_next.
  set (e := if (length keys <=? _index)%nat then 0%nat else _index).
  assert (e < length keys)%nat as He.
  { subst e. destruct (Nat.leb_spec (length keys) _index); [|done].
    destruct keys; [done|simpl; lia]. }
  split; [done|]. destruct (lookup_lt_is_Some_2 keys e He) as [key Hk].
  exists key. by rewrite Hk.
Qed.

Lemma Viewer_nexts_spec keys _index k :
  keys ≠ [] →
  let e := if (length keys <=? _index)%nat then 0%nat else _index in
  ∃ l i, Viewer_nexts keys _index k = Return (l, i) ∧ length l = k ∧
         ∀ j, (j < k)%nat → l !! j = keys !! ((e + j) mod length keys)%nat.
Proof.
  intros Hne. revert _index. induction k as [|k IH]; intros idx; cbv zeta; simpl.
  - exists [], idx. split_and!; [done..|]. intros j Hj. lia.
  - destruct (Viewer_next_spec keys idx Hne) as (He & key & Hkey & ->).
    set (e := if (length keys <=? idx)%nat then 0%nat else idx) in *.
    destruct (IH (S e)) as (l & i & -> & Hlen & Hl). cbv zeta in Hl.
    exists (key :: l), i. split_and!; [done|by rewrite <- Hlen|].
    intros [|j] Hj; simpl.
    + by rewrite Nat.add_0_r, Nat.mod_small.
    + rewrite Hl by lia. f_equal.
      destruct (Nat.leb_spec (length keys) (S e)) as [Hle|Hlt].
      * assert (S e = length keys) as Hn by lia. simpl.
        replace (e + S j)%nat with (j + 1 * length keys)%nat by lia.
        by rewrite Nat.Div0.mod_add.
      * f_equal. lia.
Qed.

(** X17.  On a viewer with figures, [next] never runs off the list: calls
    in a row from a fresh viewer return the figures in the order of the
    dictionary's keys, starting over after the last. *)
Theorem viewer_next_round_robin keys k :
  keys ≠ [] →
  ∃ l i, Viewer_nexts keys 0 k = Return (l, i) ∧ length l = k ∧
         ∀ j, (j < k)%nat → l !! j = keys !! (j mod length keys)%nat.
Proof.
  intros Hne. destruct (Viewer_nexts_spec keys 0 k Hne) as (l & i & Hrun & Hlen & Hl).
  exists l, i. split_and!; [done..|]. intros j Hj. rewrite (Hl j Hj).
  by destruct (length keys <=? 0)%nat.
Qed.

(** X18.  Merging the same defaults a second time changes nothing, with or
    without [overwrite], be the second dictionary an equal one or (without
    [overwrite], where the first call made it the object's own dictionary)
    the very same; and every key of the defaults is present after the
    merge. *)
Theorem updateProperties_idempotent (existing newProps : dict) (overwrite : bool) :
  _updateProperties (_updateProperties existing newProps overwrite) newProps overwrite
    = _updateProperties existing newProps overwrite ∧
  _updateProperties (_updateProperties existing newProps overwrite)
                    (_updateProperties existing newProps overwrite) overwrite
    = _updateProperties existing newProps overwrite ∧
  ∀ k, is_Some (newProps !! k) →
       is_Some (_updateProperties existing newProps overwrite !! k).
Proof.
  split; [|split].
  2:{ generalize (_updateProperties existing newProps overwrite). intros d.
      apply map_eq. intros k. unfold _updateProperties. destruct overwrite.
      - rewrite lookup_update. by destruct (d !! k).
      - rewrite lookup_update, lookup_truthy_items.
        destruct (d !! k) as [v|]; [by destruct (truthy v)|done]. }
  - apply map_eq. intros k. unfold _updateProperties. destruct overwrite.
    + rewrite !lookup_update. by destruct (newProps !! k).
    + rewrite !lookup_update, !lookup_truthy_items, !lookup_update, !lookup_truthy_items.
      destruct (existing !! k) as [v|]; [destruct (truthy v) eqn:Hv; [by rewrite Hv|]|];
        destruct (newProps !! k) as [w|]; try done; by destruct (truthy w).
  - intros k [w Hw]. unfold _updateProperties. destruct overwrite.
    + rewrite lookup_update, Hw. by eexists.
    + rewrite lookup_update, lookup_truthy_items.
      destruct (existing !! k) as [v|]; [destruct (truthy v)|]; rewrite ?Hw; by eexists.
Qed.

(** ** Commands to the viewer *)

Section command_extras.
Context (U : ObjTable) (env : Env).
Context (tmpdir : string) (quote : string → string) (fig : Figure).

(** A call with [retry] off. *)
Lemma send_command_last_net fuel gfuel w attempt cmd s :
  ∃ l,
    net_calls (trace (send_command U env tmpdir quote fig fuel gfuel w attempt cmd false s).1)
      = net_calls (trace s) ++ l ∧
    (l = [] ∨ l = [inl ("http://localhost:9999/command=" +:+ quote cmd)]).
Proof.
  destruct fuel as [|fuel]; simpl.
  { exists []. split; [by rewrite app_nil_r|by left]. }
  destruct (lavavu env && (rank env =? 0)%nat).
  2:{ exists []. split; [by rewrite app_nil_r|by left]. }
  unfold mbind at 1. unfold M_bind at 1.
  pose proof (open_viewer_net U env tmpdir fig gfuel w attempt s) as Hn.
  destruct (open_viewer U env tmpdir fig gfuel w attempt s) as [s1 [[]|e|]]; simpl in Hn.
  - unfold mbind, M_bind, mret, M_ret, act.
    exists [inl ("http://localhost:9999/command=" +:+ quote cmd)]. split; [|by right].
    destruct (urlopen w attempt); net_simpl; by rewrite Hn.
  - exists []. split; [by rewrite app_nil_r|by left].
  - exists []. split; [by rewrite app_nil_r|by left].
Qed.

(** X19.  Whatever the viewer, the network and [open_viewer] do, and
    whatever fuel is given, a call of [send_command] sends at most two
    requests, with one sleep of a second between them; a call with [retry]
    off sends at most one request and does not sleep. *)
Theorem send_command_bounded fuel gfuel w attempt cmd retry s :
  ∃ l,
    net_calls (trace (send_command U env tmpdir quote fig fuel gfuel w attempt cmd retry s).1)
      = net_calls (trace s) ++ l ∧
    (l = [] ∨ l = [inl ("http://localhost:9999/command=" +:+ quote cmd)] ∨
     retry = true ∧
     (l = [inl ("http://localhost:9999/command=" +:+ quote cmd); inr 1] ∨
      l = [inl ("http://localhost:9999/command=" +:+ quote cmd); inr 1;
           inl ("http://localhost:9999/command=" +:+ quote cmd)])).
Proof.
  destruct retry.
  2:{ destruct (send_command_last_net fuel gfuel w attempt cmd s) as (l & Hl & [->| ->]);
        eexists; (split; [exact Hl|]); by eauto. }
  destruct fuel as [|fuel]; simpl.
  { exists []. split; [by rewrite app_nil_r|by left]. }
  destruct (lavavu env && (rank env =? 0)%nat).
  2:{ exists []. split; [by rewrite app_nil_r|by left]. }
  unfold mbind at 1. unfold M_bind at 1.
  pose proof (open_viewer_net U env tmpdir fig gfuel w attempt s) as Hn.
  destruct (open_viewer U env tmpdir fig gfuel w attempt s) as [s1 [[]|e|]]; simpl in Hn.
  2,3: exists []; (split; [by rewrite app_nil_r|by left]).
  unfold mbind at 1. unfold M_bind at 1. unfold act at 1.
  destruct (urlopen w attempt).
  { eexists [_]. split; [|by right; left]. net_simpl. by rewrite Hn. }
  unfold mbind, M_bind, act.
  set (s2 := emit (EvSleep 1) _).
  destruct (send_command_last_net fuel gfuel w (S attempt) cmd s2) as (l & Hl & Hcase).
  assert (net_calls (trace s2) =
          net_calls (trace s) ++ [inl ("http://localhost:9999/command=" +:+ quote cmd); inr 1])
    as Hn2.
  { subst s2. rewrite !net_calls_emit, Hn. simpl. by rewrite !app_nil_r, <- app_assoc. }
  rewrite Hn2, <- app_assoc in Hl. eexists. split; [exact Hl|].
  right; right. split; [done|]. destruct Hcase as [->| ->]; by eauto.
Qed.

End command_extras.

(** ** The further properties on examples *)

Lemma save_appends_extension_witness :
  save root_env "myvis" live_store =
    (emit (EvBackupDbFile "myvis.gldb") live_store, Return (Some "myvis.gldb")) ∧
  has_db_extension "myvis.gldb" = true ∧
  save root_env "myvis.gldb" live_store =
    (emit (EvBackupDbFile "myvis.gldb") live_store, Return (Some "myvis.gldb")).
Proof.
  apply (save_appends_extension root_env "myvis" live_store). reflexivity.
Defined.

Lemma store_filename_round_trip_witness :
  sc_filename (Store_config (Some "myvis") true false (λ _, false)) = Some "myvis.gldb" ∧
  stg_filename (sc_filename (Store_config (Some "myvis") true false (λ _, false)))
    = Some "myvis" ∧
  sc_filename (Store_config (Some "myvis.gldb") true false (λ _, false)) = Some "myvis.gldb".
Proof.
  apply (store_filename_round_trip "myvis" true false (λ _, false)).
  - discriminate.
  - reflexivity.
Defined.

Lemma unnamed_store_is_single_file_witness :
  _add_to_stg_dict (Store_config None true true (λ _, true)) ∅ !! "singleFile"
    = Some (VBool true) ∧
  _add_to_stg_dict (Store_config None true true (λ _, true)) ∅ !! "viewonly"
    = Some (VBool false) ∧
  _viewonly (Store_init None true (λ _, true)) = false.
Proof.
  apply (unnamed_store_is_single_file None true true (λ _, true) ∅). by left.
Defined.

Lemma generate_terminates_witness :
  (_generate ex_table root_env 4 (Figures [] []) "Figure_1" [1%nat; 2%nat] ∅ live_store).2
    ≠ Diverge ∧
  _generate ex_table root_env 10 (Figures [] []) "Figure_1" [1%nat; 2%nat] ∅ live_store =
    _generate ex_table root_env 4 (Figures [] []) "Figure_1" [1%nat; 2%nat] ∅ live_store.
Proof.
  apply (generate_terminates ex_table root_env 4 10 (Figures [] []) "Figure_1"
           [1%nat; 2%nat] ∅ live_store).
  - apply ex_table_flat.
  - simpl. lia.
  - lia.
Defined.

Lemma generate_diverges_on_cyclic_colourbars_witness :
  _generate cyclic_table root_env 50 (Figures [] []) "Figure_1" [1%nat] ∅ live_store =
    (live_store, Diverge).
Proof.
  apply (generate_diverges_on_cyclic_colourbars cyclic_table root_env (λ _, True)).
  - intros x _. by exists x.
  - exists 1%nat. split; [left|done].
Defined.

Lemma generate_appends_colourbars_witness :
  [1%nat; 2%nat; 5%nat] = [1%nat; 2%nat] ++ omap (_colourBar ex_table) [1%nat; 2%nat].
Proof.
  apply (generate_appends_colourbars ex_table root_env 4 (Figures [] []) "Figure_1"
           [1%nat; 2%nat] ∅ live_store live_result1.1 [1%nat; 2%nat; 5%nat]).
  - apply ex_table_flat.
  - vm_compute. reflexivity.
Defined.

Lemma store_list_grows_without_repeats_witness :
  NoDup (_objects fresh_run) ∧
  _viewonly fresh_run = _viewonly (Store_init None false (λ _, false)) ∧
  ∀ calls' s'', run_calls ex_table root_env 4 calls' fresh_run = Some s'' →
                NoDup (_objects s'') ∧ ∃ ext, _objects s'' = _objects fresh_run ++ ext.
Proof.
  apply (store_list_grows_without_repeats ex_table root_env 4 fresh_calls None false
           (λ _, false) fresh_run).
  vm_compute. reflexivity.
Defined.

Lemma live_visibility_ignores_parent_witness :
  parent live_result2.1 !! 1%nat = None ∧
  get_props live_result2.1 1%nat !! "visible"
    = Some (VBool (bool_decide (1%nat ∈ [3%nat]))).
Proof.
  apply (live_visibility_ignores_parent ex_table root_env 4 (Figures [] []) "Figure_2"
           [3%nat] ∅ live_result1.1 live_result2.1 [3%nat] 1%nat).
  - apply live_result1_inv.
  - vm_compute. reflexivity.
  - vm_compute. reflexivity.
  - refine (bool_decide_unpack _ _). vm_compute. exact I.
Defined.

Lemma live_register_mirrors_store_witness :
  register live_result1.1 = _objects live_result1.1.
Proof.
  apply (live_register_mirrors_store ex_table root_env 4 (Figures [] []) "Figure_1"
           [1%nat; 2%nat] ∅ live_store live_result1.1 [1%nat; 2%nat; 5%nat]).
  - reflexivity.
  - vm_compute. reflexivity.
Defined.

Lemma live_export_shape_witness :
  ∃ e,
    writes (trace live_result1.1) = writes (trace live_store) ++ [("Figure_1", WExport e)] ∧
    ex_properties e = ∅ ∧ ex_views e = [∅] ∧
    ex_objects e = map (get_props live_result1.1) (_objects live_result1.1) ∧
    Forall (λ d, is_Some (d !! "name") ∧ ∃ b, d !! "visible" = Some (VBool b))
           (ex_objects e).
Proof.
  apply (live_export_shape ex_table root_env 4 (Figures [] []) "Figure_1"
           [1%nat; 2%nat] ∅ live_store live_result1.1 [1%nat; 2%nat; 5%nat]).
  - reflexivity.
  - vm_compute. reflexivity.
Defined.

Lemma generate_writes_at_most_once_witness :
  lavavu root_env && (rank root_env =? 0)%nat = true ∧
  ∃ ex,
    writes (trace (_generate ex_table root_env 4 (ViewerError "gone") "Figure_1"
                     [1%nat; 2%nat] ∅ live_store).1) =
      writes (trace live_store) ++ [("Figure_1", WExport ex)].
Proof.
  apply (generate_writes_at_most_once ex_table root_env 4 (ViewerError "gone") "Figure_1"
           [1%nat; 2%nat] ∅ live_store
           (_generate ex_table root_env 4 (ViewerError "gone") "Figure_1"
                      [1%nat; 2%nat] ∅ live_store).1
           (Raise (RuntimeError "gone"))).
  vm_compute. reflexivity.
Defined.

Lemma viewonly_outcome_witness :
  ∃ objects',
    (objects' = [] ↔ [7%nat] = []) ∧
    view_result.2 = Return objects'.
Proof.
  apply (viewonly_outcome ex_table root_env 4 (Figures ex_document []) "Figure_1" [7%nat]
           {[ "title" := VStr "new" ]} view_store view_result.1 view_result.2).
  - reflexivity.
  - vm_compute. reflexivity.
  - vm_compute. discriminate.
Defined.

Lemma viewonly_leaves_local_objects_witness :
  (∀ k, k ≠ "name" → get_props view_result.1 7%nat !! k = get_props view_store 7%nat !! k) ∧
  (is_Some (get_props view_store 7%nat !! "name") →
   get_props view_result.1 7%nat = get_props view_store 7%nat).
Proof.
  apply (viewonly_leaves_local_objects ex_table root_env 4 (Figures ex_document [])
           "Figure_1" [7%nat] {[ "title" := VStr "new" ]} view_store view_result.1
           view_result.2 7%nat).
  - reflexivity.
  - vm_compute. reflexivity.
Defined.

Lemma default_names_unique_witness :
  is_Some (get_props fresh_run 1%nat !! "name") ∧
  get_props fresh_run 1%nat !! "name" ≠ get_props fresh_run 3%nat !! "name".
Proof.
  apply (default_names_unique ex_table root_env 4 fresh_calls fresh_store fresh_run
           0 3 1%nat 3%nat).
  - reflexivity.
  - intros obj. unfold get_props. simpl. by rewrite lookup_empty.
  - vm_compute. reflexivity.
  - vm_compute. reflexivity.
  - vm_compute. reflexivity.
  - lia.
Defined.

Lemma names_collide_after_empty_witness :
  _objects after_empty.1 = [2%nat; 3%nat] ∧
  get_props after_empty.1 3%nat !! "name" = get_props after_empty.1 2%nat !! "name".
Proof.
  apply (names_collide_after_empty ex_table root_env 4 (Figures [] []) "Figure_2" ∅
           two_named after_empty.1 after_empty.2 2%nat 3%nat).
  - lia.
  - reflexivity.
  - reflexivity.
  - reflexivity.
  - vm_compute. reflexivity.
  - vm_compute. reflexivity.
  - vm_compute. reflexivity.
  - vm_compute. reflexivity.
  - vm_compute. discriminate.
Defined.

Lemma figure_default_names_distinct_witness :
  is_Some ([VStr "Figure_1"; VStr "mine"; VStr "Figure_2"] !! 0%nat) ∧
  [VStr "Figure_1"; VStr "mine"; VStr "Figure_2"] !! 0%nat
    ≠ [VStr "Figure_1"; VStr "mine"; VStr "Figure_2"] !! 2%nat.
Proof.
  apply (figure_default_names_distinct ex_requests 1
           [VStr "Figure_1"; VStr "mine"; VStr "Figure_2"] 3 0 2 VNone ∅ VNone ∅).
  - vm_compute. reflexivity.
  - lia.
  - reflexivity.
  - reflexivity.
  - reflexivity.
  - reflexivity.
  - reflexivity.
  - reflexivity.
Defined.

Lemma viewer_next_round_robin_witness :
  ∃ l i, Viewer_nexts ["Figure_1"; "Figure_2"] 0 5 = Return (l, i) ∧ length l = 5%nat ∧
         ∀ j, (j < 5)%nat →
              l !! j = ["Figure_1"; "Figure_2"] !! (j mod length ["Figure_1"; "Figure_2"])%nat.
Proof.
  apply (viewer_next_round_robin ["Figure_1"; "Figure_2"] 5). discriminate.
Defined.
